(** * rscode: rsync-style escaping of file names

    A shallow embedding of [src/rscode.c] and the properties of its
    transcoder, its record reader and its option handling.

    Conventions of the embedding.
    - A byte of memory or of a stream is a [Z] in [0, 256).
    - A [const char *] is the list of the bytes stored from the pointer
      on.  The NUL that ends a C string may be left implicit at the end
      of the list: reading past the end of the list reads 0.
    - [stdout] is the list of the bytes written so far; [stderr] is the
      list of the diagnostics issued so far (the message of each
      [warnx], [errx] or [err] call, without the program-name prefix and
      without the [strerror] suffix, which the C library adds).
    - [getopt] belongs to the C library: an invocation is given by the
      option characters [getopt] returns, in order, and by the operands
      that are left in [argv] once [optind] entries are skipped.  What
      [getopt] itself prints about an option it does not know is not
      part of [stderr] here. *)

From Stdlib Require Import ZArith Lia Bool List String Ascii.
From stdpp Require Import base list.
Import ListNotations.
Local Open Scope Z_scope.

(** ** Bytes, characters and the C library *)

Definition byte_of_ascii (a : ascii) : Z := Z.of_N (N_of_ascii a).

(** The bytes of a string literal. *)
Definition bytes (s : string) : list Z :=
  map byte_of_ascii (list_ascii_of_string s).

Definition is_byte (b : Z) : bool := (0 <=? b) && (b <? 256).

(** The value of an object of type [char] that holds byte [b], for a
    signed plain [char].  With an unsigned [char] the value would be [b]
    itself; none of the tests the program makes tells the two apart
    (bytes from 128 on are neither printable, nor ASCII, nor digits
    either way), see [char_sign_irrelevant]. *)
Definition char (b : Z) : Z := if b <? 128 then b else b - 256.

(** The conversion [(unsigned char)c]; [putchar] applies it to its
    argument. *)
Definition uchar (c : Z) : Z := c mod 256.

(** <ctype.h> in the "C" locale (the program never calls [setlocale]). *)
Definition isprint (c : Z) : bool := (32 <=? c) && (c <=? 126).
Definition isascii (c : Z) : bool := Z.land c (Z.lnot 127) =? 0.
Definition isdigit (c : Z) : bool := (48 <=? c) && (c <=? 57).

Definition EXIT_SUCCESS : Z := 0.
Definition EXIT_FAILURE : Z := 1.

(** [strlen s] *)
Fixpoint strlen (s : list Z) : nat :=
  match s with
  | [] => O
  | b :: s' => if b =? 0 then O else S (strlen s')
  end.

(** [s[i]], as a [char] *)
Definition at_ (s : list Z) (i : nat) : Z := char (nth i s 0).

(** [strtol(s, NULL, 8)] on a string that starts with octal digits: the
    digits are accumulated up to the first byte that is not one.  (White
    space and sign, which [strtol] also accepts, never reach it here.) *)
Fixpoint strtol8 (acc : Z) (s : list Z) : Z :=
  match s with
  | [] => acc
  | d :: s' =>
      if (48 <=? char d) && (char d <=? 55)
      then strtol8 (acc * 8 + (char d - 48)) s'
      else acc
  end.

(** The output of [printf("%03o", n)] for [n < 512]: exactly three octal
    digits.  The only caller passes an [unsigned char]. *)
Definition fmt_03o (n : Z) : list Z :=
  [48 + n / 64; 48 + n / 8 mod 8; 48 + n mod 8].

(** ** The state of the program *)

(** A [FILE *] open for reading. *)
Inductive FILEp : Type :=
| stdin
| opened (path : string).

(** What a stream delivers: the bytes [getc] returns before it returns
    [EOF], and whether that [EOF] is a read error ([ferror]). *)
Record stream : Type := { s_data : list Z; s_ferror : bool }.

(** The world outside the program. *)
Record env : Type := {
  a0 : string;                          (* argv[0] *)
  PACKAGE_NAME : string;                (* from config.h *)
  PACKAGE_VERSION : string;             (* from config.h *)
  e_stdin : stream;
  e_files : string -> option stream;    (* None: fopen fails *)
  e_alloc : nat -> bool;                (* does malloc/realloc grant n bytes *)
  e_fresh : Z                           (* what fresh heap memory holds *)
}.

Record state : Type := {
  s_decode : bool;
  s_inpstr : option FILEp;              (* None is NULL *)
  s_nulterm : bool;
  out : list Z;                         (* stdout *)
  errs : list string                    (* stderr *)
}.

(** The static variables are zero-initialised. *)
Definition initial : state :=
  {| s_decode := false; s_inpstr := None; s_nulterm := false;
     out := []; errs := [] |}.

Definition with_decode (v : bool) (st : state) : state :=
  {| s_decode := v; s_inpstr := s_inpstr st; s_nulterm := s_nulterm st;
     out := out st; errs := errs st |}.
Definition with_inpstr (v : option FILEp) (st : state) : state :=
  {| s_decode := s_decode st; s_inpstr := v; s_nulterm := s_nulterm st;
     out := out st; errs := errs st |}.
Definition with_nulterm (v : bool) (st : state) : state :=
  {| s_decode := s_decode st; s_inpstr := s_inpstr st; s_nulterm := v;
     out := out st; errs := errs st |}.
Definition with_out (v : list Z) (st : state) : state :=
  {| s_decode := s_decode st; s_inpstr := s_inpstr st;
     s_nulterm := s_nulterm st; out := v; errs := errs st |}.
Definition with_errs (v : list string) (st : state) : state :=
  {| s_decode := s_decode st; s_inpstr := s_inpstr st;
     s_nulterm := s_nulterm st; out := out st; errs := v |}.

(** A computation either returns, or ends the process ([exit], [err],
    [errx]), or has undefined behaviour. *)
Inductive result (A : Type) : Type :=
| Ret (a : A) (st : state)
| Exit (code : Z) (st : state)
| Undefined (st : state).
Arguments Ret {A} a st.
Arguments Exit {A} code st.
Arguments Undefined {A} st.

Definition M (A : Type) : Type := state -> result A.

Definition ret {A} (a : A) : M A := fun st => Ret a st.

Definition bind {A B} (m : M A) (k : A -> M B) : M B :=
  fun st =>
    match m st with
    | Ret a st' => k a st'
    | Exit c st' => Exit c st'
    | Undefined st' => Undefined st'
    end.

Notation "x <- m ;; k" := (bind m (fun x => k))
  (at level 100, m at next level, right associativity).
Notation "m ;; k" := (bind m (fun _ => k))
  (at level 100, right associativity).

Definition gets {A} (f : state -> A) : M A := fun st => Ret (f st) st.
Definition modify (f : state -> state) : M unit := fun st => Ret tt (f st).
Definition exit {A} (code : Z) : M A := fun st => Exit code st.
Definition undefined {A} : M A := fun st => Undefined st.

(** [fwrite] of a block of bytes to [stdout]. *)
Definition write (bs : list Z) : M unit :=
  modify (fun st => with_out (out st ++ bs) st).

Definition putchar (c : Z) : M unit := write [uchar c].

Definition puts (s : string) : M unit := write (bytes s ++ [10]).

Definition warnx (msg : string) : M unit :=
  modify (fun st => with_errs (errs st ++ [msg]) st).

Definition errx {A} (code : Z) (msg : string) : M A :=
  warnx msg ;; exit code.

(** [err] is [errx] with the text of [errno] appended to the message. *)
Definition err {A} (code : Z) (msg : string) : M A :=
  warnx msg ;; exit code.

(** ** The transcoder *)

Definition isodigit (c : Z) : bool := (48 <=? c) && (c <=? 55).

Definition iseseq (s : list Z) (strict : bool) : bool :=
  if negb (at_ s 0 =? 92) then false
  else if (strlen s <? 5)%nat then false
  else if negb (at_ s 1 =? 35) then false
  else
    let fn := if strict then isodigit else isdigit in
    fn (at_ s 2) && fn (at_ s 3) && fn (at_ s 4).

Definition parseeseq (s : list Z) : Z :=
  let tmp := take 3 (drop 2 s) in
  strtol8 0 tmp.

(** The bytes the [while] loop of [encode] writes.  (The local [rem] of
    [encode] and of [decode] is set and never read; it is left out.) *)
Fixpoint encode_loop (s : list Z) : list Z :=
  match s with
  | [] => []
  | b :: s' =>
      if b =? 0 then []
      else
        (if iseseq s false || negb (isprint (char b)) || negb (isascii (char b))
         then [92; 35] ++ fmt_03o (uchar (char b))
         else [uchar (char b)])
        ++ encode_loop s'
  end.

Definition encode (s : list Z) : M unit :=
  write (encode_loop s) ;;
  putchar 10.

(** The bytes the [while] loop of [decode] writes.  After an escape
    sequence the pointer moves on by 4 + 1; [iseseq] has checked that
    these five bytes are there. *)
Fixpoint decode_loop (s : list Z) : list Z :=
  match s with
  | [] => []
  | b :: s1 =>
      if b =? 0 then []
      else if iseseq s true then
        uchar (parseeseq s) ::
        match s1 with
        | _ :: _ :: _ :: _ :: s5 => decode_loop s5
        | _ => []
        end
      else uchar (char b) :: decode_loop s1
  end.

Definition decode (s : list Z) : M unit :=
  write (decode_loop s) ;;
  nul <- gets s_nulterm ;;
  putchar (if nul then 0 else 10).

(** ** Options *)

(** What [getopt] returns for the option string "edf:0hV": one of the
    option characters, with [optarg] for [-f], or ['?'] for anything
    else. *)
Inductive optchar : Type :=
| opt_e
| opt_d
| opt_f (optarg : string)
| opt_0
| opt_h
| opt_V
| opt_unknown.

Definition NL : string := String "010"%char EmptyString.
Definition TAB : string := String "009"%char EmptyString.

Section Program.

Variable E : env.

Definition usage_text : string :=
  String.concat NL
    [ "==================================================================";
      "==           rscode - en/decode filenames rsync-style           ==";
      "==================================================================";
      ("usage: " ++ a0 E ++ " [-de0hV -f <file>] [ <input> ... ]")%string;
      "";
      "Converts funky chars the way rsync does for filenames.";
      "The encoding process translates nonprintable characters";
      "  into ``\#ooo'', were ``ooo'' is the octal codepoint value.";
      "  In literal ``\#ooo'' tokens, the backslash is in turn encoded";
      "  in the same way, i.e. ''\#123'' becomes ``\#134#123'', even if";
      "  ``ooo'' wasn't a legitimate octal number (i.e. may contain 8, 9)";
      "The decoding process does the inverse operation.";
      "";
      "Parameter summary:";
      (TAB ++ "-d: Decode.")%string;
      (TAB ++ "-e: Encode.  This is the default.")%string;
      (TAB ++ "-f <file>: Read input to en/decode from <file> instead of stdin")%string;
      (TAB ++ "-0: When encoding, expect input strings to be \0-terminated")%string;
      (TAB ++ "    rather than by \n.  When decoding, terminate output strings")%string;
      (TAB ++ "    by \0 instead of \n")%string;
      (TAB ++ "-h: Display this usage statement and terminate")%string;
      (TAB ++ "-V: Print version information")%string;
      "";
      "If no arguments and no -f is given, we read from stdin.";
      "If arguments are given, we ignore stdin and use the args as input";
      "";
      ("Version: " ++ PACKAGE_VERSION E)%string;
      ("(C) 2014, Timo Buhrmester (contact: #fstd @ irc.freenode.org)" ++ NL)%string ]%string.

(** [usage(str, a0, ec)], with [str] either [stdout] or [stderr]. *)
Definition usage {A} (to_stdout : bool) (ec : Z) : M A :=
  (if to_stdout then write (bytes usage_text) else warnx usage_text) ;;
  exit ec.

(** The body of the [switch] for one option character. *)
Definition process_opt (ch : optchar) : M unit :=
  match ch with
  | opt_e | opt_d =>
      modify (with_decode (match ch with opt_d => true | _ => false end))
  | opt_f optarg =>
      (if String.eqb optarg "-" then modify (with_inpstr (Some stdin))
       else
         match e_files E optarg with
         | Some _ => modify (with_inpstr (Some (opened optarg)))
         | None => err EXIT_FAILURE ("fopen " ++ optarg)%string
         end) ;;
      (* there is no break here: control runs on into case '0' *)
      modify (with_nulterm true)
  | opt_0 => modify (with_nulterm true)
  | opt_h => usage true EXIT_SUCCESS
  | opt_V =>
      puts (PACKAGE_NAME E ++ " v" ++ PACKAGE_VERSION E)%string ;;
      exit EXIT_SUCCESS
  | opt_unknown => usage false EXIT_FAILURE
  end.

(** The [for] loop over [getopt]. *)
Fixpoint getopt_loop (opts : list optchar) : M unit :=
  match opts with
  | [] => ret tt
  | ch :: opts' => process_opt ch ;; getopt_loop opts'
  end.

Definition is_some {A} (o : option A) : bool :=
  match o with Some _ => true | None => false end.

(** [process_args]: [opts] is what [getopt] finds, [operands] is [argv]
    after the shift by [optind]; the operands are returned, as the
    function leaves them in [argv]. *)
Definition process_args (opts : list optchar) (operands : list (list Z))
  : M (list (list Z)) :=
  getopt_loop opts ;;
  let argc := length operands in
  inp <- gets s_inpstr ;;
  (if negb (argc =? 0)%nat && is_some inp
   then errx EXIT_FAILURE "error: arguments and -f present, wat do?!"
   else ret tt) ;;
  inp <- gets s_inpstr ;;
  (if (argc =? 0)%nat && negb (is_some inp)
   then modify (with_inpstr (Some stdin))
   else ret tt) ;;
  dec <- gets s_decode ;;
  nul <- gets s_nulterm ;;
  (if negb (argc =? 0)%nat && negb dec && nul
   then warnx "warning: ignoring -0 because arguments are provided" ;;
        modify (with_nulterm false)
   else ret tt) ;;
  ret operands.

Definition init (opts : list optchar) (operands : list (list Z))
  : M (list (list Z)) :=
  process_args opts operands.

(** ** The record reader and [main] *)

(** The heap block [buf] of [bufsz] bytes, and the write position. *)
Record buffer : Type := { bufsz : nat; bufpos : nat; buf : list Z }.

(** What a stream handle delivers. *)
Definition contents (h : FILEp) : stream :=
  match h with
  | stdin => e_stdin E
  | opened path =>
      match e_files E path with
      | Some s => s
      | None => {| s_data := []; s_ferror := true |}
      end
  end.

(** [malloc(n)]; the bytes of a fresh block are indeterminate. *)
Definition malloc (n : nat) : M buffer :=
  if e_alloc E n
  then ret {| bufsz := n; bufpos := O; buf := replicate n (e_fresh E) |}
  else err EXIT_FAILURE "malloc".

(** [realloc(buf, bufsz *= 2)] *)
Definition realloc_twice (B : buffer) : M buffer :=
  let n := (bufsz B * 2)%nat in
  if e_alloc E n
  then ret {| bufsz := n; bufpos := bufpos B;
              buf := buf B ++ replicate (n - bufsz B) (e_fresh E) |}
  else err EXIT_FAILURE "realloc".

(** [buf[i] = v]; a store outside the block is undefined behaviour. *)
Definition store (B : buffer) (i : nat) (v : Z) : M buffer :=
  if (i <? bufsz B)%nat
  then ret {| bufsz := bufsz B; bufpos := bufpos B; buf := <[i := v]> (buf B) |}
  else undefined.

Definition set_bufpos (p : nat) (B : buffer) : buffer :=
  {| bufsz := bufsz B; bufpos := p; buf := buf B |}.

(** The [while ((c = getc(s_inpstr)) != EOF)] loop, by recursion on the
    bytes the stream delivers. *)
Fixpoint read_loop (encdec : list Z -> M unit) (input : list Z) (B : buffer)
  : M buffer :=
  match input with
  | [] => ret B
  | c :: input' =>
      B1 <- (if (bufsz B <=? bufpos B)%nat then realloc_twice B else ret B) ;;
      dec <- gets s_decode ;;
      nul <- gets s_nulterm ;;
      if c =? (if negb dec && nul then 0 else 10) then
        B2 <- store B1 (bufpos B1) 0 ;;
        encdec (buf B2) ;;
        read_loop encdec input' (set_bufpos O B2)
      else
        B2 <- store B1 (bufpos B1) c ;;
        read_loop encdec input' (set_bufpos (S (bufpos B2)) B2)
  end.

(** The [while (argc--)] loop over the operands. *)
Fixpoint args_loop (encdec : list Z -> M unit) (argv : list (list Z))
  : M unit :=
  match argv with
  | [] => ret tt
  | s :: argv' => encdec s ;; args_loop encdec argv'
  end.

(** [main]; the value returned is the exit status. *)
Definition main (opts : list optchar) (operands : list (list Z)) : M Z :=
  argv <- init opts operands ;;
  dec <- gets s_decode ;;
  let encdec := if dec then decode else encode in
  if negb (length argv =? 0)%nat then
    args_loop encdec argv ;;
    ret EXIT_SUCCESS
  else
    B <- malloc 1024 ;;
    inp <- gets s_inpstr ;;
    match inp with
    | None => undefined
    | Some h =>
        B <- read_loop encdec (s_data (contents h)) B ;;
        (if s_ferror (contents h) then err EXIT_FAILURE "fgetc" else ret tt) ;;
        (if negb (bufpos B =? 0)%nat then
           warnx "warning: terminator missing on last input entry" ;;
           B <- store B (bufpos B) 0 ;;
           encdec (buf B)
         else ret tt) ;;
        ret EXIT_SUCCESS
    end.

(** A run of the program from its initial state. *)
Definition run (opts : list optchar) (operands : list (list Z)) : result Z :=
  main opts operands initial.

End Program.

(** ** Vocabulary of the specification *)

(** Every element is a byte. *)
Definition bytes_ok (s : list Z) : bool := forallb is_byte s.

(** A record has no NUL in it. *)
Definition nul_free (s : list Z) : bool := forallb (fun b => negb (b =? 0)) s.

(** The C string held at the start of [s]: the bytes before the first
    NUL. *)
Definition cstr (s : list Z) : list Z := take (strlen s) s.

(** The two digit classes, on bytes. *)
Definition lenient_digit (b : Z) : bool := (48 <=? b) && (b <=? 57).
Definition strict_digit (b : Z) : bool := (48 <=? b) && (b <=? 55).

(** The next five bytes are a backslash, a hash and three digits of the
    given class. *)
Definition token_at (digit : Z -> bool) (s : list Z) : bool :=
  match s with
  | x :: y :: a :: b :: c :: _ =>
      (x =? 92) && (y =? 35) && digit a && digit b && digit c
  | _ => false
  end.

(** No position of the record starts a backslash, hash and three lenient
    digits. *)
Fixpoint lookalike_free (r : list Z) : bool :=
  match r with
  | [] => true
  | _ :: r' => negb (token_at lenient_digit r) && lookalike_free r'
  end.

(** The number that three octal digit characters denote. *)
Definition octal_value (a b c : Z) : Z :=
  (a - 48) * 64 + (b - 48) * 8 + (c - 48).

(** A strict token whose number does not fit a byte: its first digit is
    '4' or more. *)
Definition wide_token_at (s : list Z) : bool :=
  token_at strict_digit s && (52 <=? nth 2 s 0).

(** Does [encode] write the head of [s] as an escape token: it starts
    what looks like a token, or it is not a printable ASCII byte. *)
Definition needs_escape (s : list Z) : bool :=
  match s with
  | [] => false
  | b :: _ => token_at lenient_digit s || negb ((32 <=? b) && (b <=? 126))
  end.

(** The terminator that the specification calls the chosen one: a NUL
    when NUL-termination mode is active, a newline otherwise. *)
Definition chosen_terminator (st : state) : Z :=
  if s_nulterm st then 0 else 10.

(** The byte at which the reader of [main] cuts the stream. *)
Definition in_terminator (st : state) : Z :=
  if negb (s_decode st) && s_nulterm st then 0 else 10.

(** The function [main] keeps in [encdec]. *)
Definition encdec_of (st : state) : list Z -> M unit :=
  if s_decode st then decode else encode.

(** What [main] writes for one record: the work of [encode] or of
    [decode], as [s_decode] selects. *)
Definition emit (st : state) (r : list Z) : list Z :=
  if s_decode st
  then decode_loop r ++ [if s_nulterm st then 0 else 10]
  else encode_loop r ++ [10].

(** A stream made of records, each followed by the terminator [t]. *)
Definition join (t : Z) (rs : list (list Z)) : list Z :=
  concat (map (fun r => r ++ [t]) rs).

(** The byte [t] does not occur in any of the records. *)
Definition free_of (t : Z) (rs : list (list Z)) : bool :=
  forallb (forallb (fun b => negb (b =? t))) rs.

(** What one sees of a run: the exit status, [stdout] and [stderr]; or
    nothing that can be relied on. *)
Definition behaviour (r : result Z) : option (Z * list Z * list string) :=
  match r with
  | Ret c st | Exit c st => Some (c, out st, errs st)
  | Undefined _ => None
  end.

(** Two results that show the same behaviour because they are the same,
    or because both end the process with the same status and the same
    output. *)
Definition same_behaviour {A} (r1 r2 : result A) : Prop :=
  r1 = r2 \/
  exists c a b,
    r1 = Exit c a /\ r2 = Exit c b /\ out a = out b /\ errs a = errs b.

(** The invocation has an option that sets [s_nulterm]. *)
Definition nul_requested (opts : list optchar) : bool :=
  existsb (fun o => match o with opt_0 | opt_f _ => true | _ => false end) opts.

Definition has_f (opts : list optchar) : bool :=
  existsb (fun o => match o with opt_f _ => true | _ => false end) opts.

(** The option loop comes to a [-h] or a [-V]: one of them stands before
    every option that fails, that is before every unknown option and
    every [-f] whose file cannot be opened. *)
Fixpoint help_reached (E : env) (opts : list optchar) : bool :=
  match opts with
  | [] => false
  | opt_h :: _ | opt_V :: _ => true
  | opt_unknown :: _ => false
  | opt_f optarg :: opts' =>
      if (optarg =? "-")%string || is_some (e_files E optarg)
      then help_reached E opts'
      else false
  | _ :: opts' => help_reached E opts'
  end.

(** The two warnings. *)
Definition ignoring_0 : string :=
  "warning: ignoring -0 because arguments are provided".

Definition terminator_missing : string :=
  "warning: terminator missing on last input entry".

(** ** The buffer of the reader, step by step *)

(** The bytes read since the last terminator. *)
Definition live (B : buffer) : list Z := take (bufpos B) (buf B).

(** The invariant of the read loop. *)
Definition wf_buffer (B : buffer) : Prop :=
  length (buf B) = bufsz B /\ (bufpos B <= bufsz B)%nat /\ (0 < bufsz B)%nat.

(** The block [main] allocates first. *)
Definition first_block (fresh : Z) : buffer :=
  {| bufsz := 1024; bufpos := O; buf := replicate 1024 fresh |}.

(** The block after the [realloc] at the head of the loop body, when it
    succeeds. *)
Definition grow (fresh : Z) (B : buffer) : buffer :=
  if (bufsz B <=? bufpos B)%nat
  then {| bufsz := bufsz B * 2; bufpos := bufpos B;
          buf := buf B ++ replicate (bufsz B * 2 - bufsz B) fresh |}
  else B.

(** The buffer after one pass of the loop body for the byte [c], when
    [c] is not the terminator. *)
Definition push (fresh : Z) (c : Z) (B : buffer) : buffer :=
  let B1 := grow fresh B in
  {| bufsz := bufsz B1; bufpos := S (bufpos B1);
     buf := <[bufpos B1 := c]> (buf B1) |}.

(** The buffer after one pass of the loop body for a terminator. *)
Definition cut (fresh : Z) (B : buffer) : buffer :=
  let B1 := grow fresh B in
  {| bufsz := bufsz B1; bufpos := O;
     buf := <[bufpos B1 := 0]> (buf B1) |}.

(** The buffer after the loop has stored the bytes of [r], none of which
    is the terminator. *)
Definition push_all (fresh : Z) (r : list Z) (B : buffer) : buffer :=
  fold_left (fun B c => push fresh c B) r B.

(** The buffer after the loop has read the records [rs] and the
    terminator of each. *)
Definition after_records (fresh : Z) (rs : list (list Z)) (B : buffer) : buffer :=
  fold_left (fun B r => cut fresh (push_all fresh r B)) rs B.

(** The sizes the block can have: 1024 bytes, doubled any number of
    times. *)
Inductive doubling : nat -> Prop :=
| doubling_first : doubling 1024
| doubling_twice n : doubling n -> doubling (n * 2).

(** While a record is read from an empty buffer on, the block has one of
    its sizes, and it is the first block or more than half full. *)
Definition snug (B : buffer) : Prop :=
  doubling (bufsz B) /\ (bufsz B = 1024%nat \/ (bufsz B < bufpos B * 2)%nat).

(** ** An environment for examples *)

(** Standard input delivers [input]; the file [somefile] exists and
    delivers [input] too; no other file can be opened; memory is never
    short. *)
Definition example_env (input : list Z) : env :=
  {| a0 := "rscode"; PACKAGE_NAME := "rscode"; PACKAGE_VERSION := "0.1";
     e_stdin := {| s_data := input; s_ferror := false |};
     e_files := fun path =>
       if String.eqb path "somefile"
       then Some {| s_data := input; s_ferror := false |}
       else None;
     e_alloc := fun _ => true;
     e_fresh := 170 |}.

(** ** Vocabulary for further properties *)

(** A printable ASCII byte. *)
Definition printable (b : Z) : bool := (32 <=? b) && (b <=? 126).

(** No position of the text starts a backslash, a hash and three digits
    in '0' to '7'. *)
Fixpoint token_free (s : list Z) : bool :=
  match s with
  | [] => true
  | _ :: s' => negb (token_at strict_digit s) && token_free s'
  end.

(** The mode the options select: the last of [-e] and [-d] decides, and
    encode is the default. *)
Definition mode_of (opts : list optchar) : bool :=
  fold_left (fun m o => match o with
                        | opt_e => false
                        | opt_d => true
                        | _ => m
                        end) opts false.

(** The stream the options select: the last [-f] decides, a dash stands
    for standard input, which is also the default. *)
Definition stream_of (opts : list optchar) : FILEp :=
  fold_left (fun h o => match o with
                        | opt_f optarg =>
                            if (optarg =? "-")%string then stdin
                            else opened optarg
                        | _ => h
                        end) opts stdin.

(** An option that lets the option loop go on: [-e], [-d], [-0], and
    [-f] with a dash or with a file that can be opened. *)
Definition benign (E : env) (o : optchar) : bool :=
  match o with
  | opt_e | opt_d | opt_0 => true
  | opt_f optarg => (optarg =? "-")%string || is_some (e_files E optarg)
  | opt_h | opt_V | opt_unknown => false
  end.

(** Option processing runs to its end: every option lets the option
    loop go on, and [-f] does not meet operands. *)
Definition options_accepted (E : env) (opts : list optchar)
    (operands : list (list Z)) : bool :=
  forallb (benign E) opts
  && negb (negb (length operands =? 0)%nat && has_f opts).

(** The state in which a computation ends, however it ends. *)
Definition final_state {A} (r : result A) : state :=
  match r with
  | Ret _ st | Exit _ st | Undefined st => st
  end.

(** [stderr] holds no warning about [-0]. *)
Definition unwarned (st : state) : Prop := ~ In ignoring_0 (errs st).

(** A computation that issues no warning about [-0]. *)
Definition keeps_unwarned {A} (m : M A) : Prop :=
  forall st, unwarned st -> unwarned (final_state (m st)).

(** * Properties *)

(** ** Bytes and characters *)

(** Case analysis on every comparison of integers in sight. *)
Ltac zbool :=
  repeat match goal with
  | |- context [Z.eqb ?a ?b] => destruct (Z.eqb_spec a b)
  | |- context [Z.leb ?a ?b] => destruct (Z.leb_spec a b)
  | |- context [Z.ltb ?a ?b] => destruct (Z.ltb_spec a b)
  | H : context [Z.eqb ?a ?b] |- _ => destruct (Z.eqb_spec a b)
  | H : context [Z.leb ?a ?b] |- _ => destruct (Z.leb_spec a b)
  | H : context [Z.ltb ?a ?b] |- _ => destruct (Z.ltb_spec a b)
  end.

Lemma is_byte_range b : is_byte b = true <-> 0 <= b < 256.
Proof. unfold is_byte. zbool; simpl; split; intros; try lia; try discriminate. Qed.

Lemma bytes_ok_cons b s :
  bytes_ok (b :: s) = true <-> 0 <= b < 256 /\ bytes_ok s = true.
Proof.
  unfold bytes_ok. simpl. rewrite andb_true_iff, is_byte_range. tauto.
Qed.

Lemma bytes_ok_app s t :
  bytes_ok (s ++ t) = true <-> bytes_ok s = true /\ bytes_ok t = true.
Proof. unfold bytes_ok. rewrite forallb_app, andb_true_iff. tauto. Qed.

Lemma uchar_char b : 0 <= b < 256 -> uchar (char b) = b.
Proof.
  intros H. unfold uchar, char. zbool.
  - apply Z.mod_small. lia.
  - replace (b - 256) with (b + (-1) * 256) by lia.
    rewrite Z.mod_add by lia. apply Z.mod_small. lia.
Qed.

Lemma char_eq b k : 0 <= b < 256 -> 0 <= k < 128 -> (char b =? k) = (b =? k).
Proof. intros. unfold char. zbool; lia. Qed.

Lemma char_range b lo hi :
  0 <= b < 256 -> 0 <= lo -> hi < 128 ->
  (lo <=? char b) && (char b <=? hi) = (lo <=? b) && (b <=? hi).
Proof. intros. unfold char. zbool; simpl; lia. Qed.

(** A property of bytes that a boolean function decides holds of every
    byte once it holds of the 256 of them. *)
Lemma byte_cases (P : Z -> bool) :
  forallb P (map Z.of_nat (seq 0 256)) = true ->
  forall b, 0 <= b < 256 -> P b = true.
Proof.
  intros H b Hb. rewrite forallb_forall in H. apply H.
  apply in_map_iff. exists (Z.to_nat b). split; [lia|].
  apply in_seq. lia.
Qed.

Lemma isascii_char b : 0 <= b < 256 -> isascii (char b) = (b <? 128).
Proof.
  intros Hb.
  apply (byte_cases (fun b => Bool.eqb (isascii (char b)) (b <? 128))) in Hb.
  - now apply eqb_prop in Hb.
  - vm_compute. reflexivity.
Qed.

Lemma needs_escape_byte b :
  0 <= b < 256 ->
  negb (isprint (char b)) || negb (isascii (char b)) = negb ((32 <=? b) && (b <=? 126)).
Proof.
  intros Hb. rewrite isascii_char by lia. unfold isprint.
  rewrite char_range by lia. zbool; simpl; lia.
Qed.

(** The signedness of plain [char] does not show: on a byte, each test
    the program makes answers the same for the signed value as for the
    byte itself, and [putchar] writes the byte back. *)
Lemma char_sign_irrelevant b :
  0 <= b < 256 ->
  isprint (char b) = isprint b /\
  isascii (char b) = isascii b /\
  isdigit (char b) = isdigit b /\
  isodigit (char b) = isodigit b /\
  (char b =? 92) = (b =? 92) /\
  (char b =? 35) = (b =? 35) /\
  uchar (char b) = uchar b.
Proof.
  intros Hb.
  apply (byte_cases
           (fun b =>
              Bool.eqb (isprint (char b)) (isprint b) &&
              Bool.eqb (isascii (char b)) (isascii b) &&
              Bool.eqb (isdigit (char b)) (isdigit b) &&
              Bool.eqb (isodigit (char b)) (isodigit b) &&
              Bool.eqb (char b =? 92) (b =? 92) &&
              Bool.eqb (char b =? 35) (b =? 35) &&
              (uchar (char b) =? uchar b))) in Hb;
    [|vm_compute; reflexivity].
  rewrite !andb_true_iff in Hb.
  destruct Hb as [[[[[[H1 H2] H3] H4] H5] H6] H7].
  apply eqb_prop in H1, H2, H3, H4, H5, H6. apply Z.eqb_eq in H7. auto 10.
Qed.

(** ** [iseseq] *)

Lemma strlen_le_length s : (strlen s <= length s)%nat.
Proof. induction s as [|b s IH]; simpl; [lia|]. destruct (b =? 0); lia. Qed.

Lemma strlen_nul_free s : nul_free s = true -> strlen s = length s.
Proof.
  induction s as [|b s IH]; simpl; [reflexivity|].
  rewrite andb_true_iff. intros [Hb Hs]. destruct (b =? 0); [discriminate|].
  now rewrite IH.
Qed.

Lemma cstr_nul_free s : nul_free s = true -> cstr s = s.
Proof.
  intros H. unfold cstr. rewrite (strlen_nul_free _ H). apply firstn_all.
Qed.

Lemma iseseq_short s strict : (length s < 5)%nat -> iseseq s strict = false.
Proof.
  intros H. unfold iseseq.
  destruct (negb (at_ s 0 =? 92)); [reflexivity|].
  pose proof (strlen_le_length s).
  destruct (Nat.ltb_spec (strlen s) 5); [reflexivity | lia].
Qed.

(** [iseseq] is the test for a token of the digit class it is asked
    for. *)
Lemma iseseq_token5 s strict :
  bytes_ok (take 5 s) = true ->
  iseseq s strict = token_at (if strict then strict_digit else lenient_digit) s.
Proof.
  intros Hs.
  destruct s as [|x [|y [|a [|b [|c rest]]]]];
    try (rewrite iseseq_short by (simpl; lia); reflexivity).
  cbn [take] in Hs.
  repeat (apply bytes_ok_cons in Hs; destruct Hs as [? Hs]).
  unfold iseseq, at_, token_at, isodigit, isdigit, strict_digit, lenient_digit.
  cbn [nth strlen].
  rewrite !char_eq by lia.
  destruct strict; rewrite !char_range by lia;
    zbool; subst; simpl; try reflexivity; try lia.
Qed.

Lemma bytes_ok_take n s : bytes_ok s = true -> bytes_ok (take n s) = true.
Proof.
  intros H. rewrite <- (take_drop n s) in H. now apply bytes_ok_app in H.
Qed.

Lemma iseseq_token s strict :
  bytes_ok s = true ->
  iseseq s strict = token_at (if strict then strict_digit else lenient_digit) s.
Proof. intros H. apply iseseq_token5, bytes_ok_take, H. Qed.

(** ** The escape token of a byte *)

Lemma fmt_03o_digits n :
  0 <= n < 256 ->
  exists a b c,
    fmt_03o n = [a; b; c] /\ 48 <= a <= 51 /\ 48 <= b <= 55 /\ 48 <= c <= 55 /\
    octal_value a b c = n.
Proof.
  intros Hn. unfold fmt_03o, octal_value.
  eexists _, _, _. split; [reflexivity|].
  pose proof (Z.mod_pos_bound n 8 ltac:(lia)).
  pose proof (Z.mod_pos_bound (n / 8) 8 ltac:(lia)).
  pose proof (Z.div_mod n 8 ltac:(lia)).
  pose proof (Z.div_mod (n / 8) 8 ltac:(lia)).
  assert (n / 64 = n / 8 / 8) as -> by (rewrite Z.div_div by lia; reflexivity).
  assert (0 <= n / 8 / 8 < 4)
    by (split; [apply Z.div_pos; [apply Z.div_pos|]; lia
               |apply Z.div_lt_upper_bound; [lia|apply Z.div_lt_upper_bound; lia]]).
  lia.
Qed.

Lemma strict_digit_range d :
  (48 <=? d) && (d <=? 55) = true <-> 48 <= d <= 55.
Proof. zbool; simpl; split; intros; try lia; discriminate. Qed.

Lemma lenient_digit_range d :
  (48 <=? d) && (d <=? 57) = true <-> 48 <= d <= 57.
Proof. zbool; simpl; split; intros; try lia; discriminate. Qed.

Lemma char_small b : b < 128 -> char b = b.
Proof. intros H. unfold char. destruct (Z.ltb_spec b 128); lia. Qed.

Lemma strict_is_lenient d : strict_digit d = true -> lenient_digit d = true.
Proof.
  unfold strict_digit, lenient_digit.
  rewrite strict_digit_range, lenient_digit_range. lia.
Qed.

(** [parseeseq] reads the number of a strict token. *)
Lemma parseeseq_token x y a b c rest :
  48 <= a <= 55 -> 48 <= b <= 55 -> 48 <= c <= 55 ->
  parseeseq (x :: y :: a :: b :: c :: rest) = octal_value a b c.
Proof.
  intros Ha Hb Hc. unfold parseeseq, octal_value. cbn [take drop strtol8].
  rewrite !char_small by lia.
  rewrite (proj2 (strict_digit_range a)), (proj2 (strict_digit_range b)),
    (proj2 (strict_digit_range c)) by lia.
  rewrite take_0. cbn [strtol8]. lia.
Qed.

(** ** One step of each loop *)

Lemma encode_loop_cons b s :
  bytes_ok (b :: s) = true ->
  encode_loop (b :: s) =
    if b =? 0 then []
    else (if needs_escape (b :: s) then 92 :: 35 :: fmt_03o b else [b])
         ++ encode_loop s.
Proof.
  intros Hs. cbn [encode_loop needs_escape].
  rewrite iseseq_token by exact Hs.
  apply bytes_ok_cons in Hs. destruct Hs as [Hb Hs].
  rewrite <- orb_assoc, needs_escape_byte, uchar_char by lia.
  reflexivity.
Qed.

(** The loop of [decode] as the source has it: after a token the pointer
    moves on by 4 and then by 1.  The inner [match] of [decode_loop]
    never takes its last branch. *)
Lemma decode_loop_unfold x s1 :
  decode_loop (x :: s1) =
    if x =? 0 then []
    else if iseseq (x :: s1) true
         then uchar (parseeseq (x :: s1)) :: decode_loop (drop 4 s1)
         else uchar (char x) :: decode_loop s1.
Proof.
  cbn [decode_loop]. destruct (x =? 0); [reflexivity|].
  destruct (iseseq (x :: s1) true) eqn:Hseq; [|reflexivity].
  unfold iseseq in Hseq. destruct (negb (at_ (x :: s1) 0 =? 92)); [discriminate|].
  destruct (Nat.ltb_spec (strlen (x :: s1)) 5) as [|Hlen]; [discriminate|].
  pose proof (strlen_le_length (x :: s1)).
  destruct s1 as [|y [|a [|b [|c s5]]]]; cbn [length] in *; try lia.
  reflexivity.
Qed.

Lemma decode_loop_cons x s1 :
  bytes_ok (take 5 (x :: s1)) = true ->
  decode_loop (x :: s1) =
    if x =? 0 then []
    else if token_at strict_digit (x :: s1)
         then uchar (parseeseq (x :: s1)) :: decode_loop (drop 4 s1)
         else x :: decode_loop s1.
Proof.
  intros Hs. rewrite decode_loop_unfold, iseseq_token5 by exact Hs.
  cbn [take] in Hs. apply bytes_ok_cons in Hs. destruct Hs as [Hx _].
  now rewrite uchar_char.
Qed.

(** A strict token at the head of the text is decoded to one byte, and
    the scan goes on after its five bytes. *)
Lemma decode_loop_token a b c rest :
  48 <= a <= 55 -> 48 <= b <= 55 -> 48 <= c <= 55 ->
  decode_loop (92 :: 35 :: a :: b :: c :: rest) =
    octal_value a b c mod 256 :: decode_loop rest.
Proof.
  intros Ha Hb Hc. rewrite decode_loop_cons.
  - change (92 =? 0) with false. cbv iota.
    unfold token_at, strict_digit.
    rewrite (proj2 (strict_digit_range a)), (proj2 (strict_digit_range b)),
      (proj2 (strict_digit_range c)) by lia.
    cbn [andb Z.eqb Pos.eqb]. rewrite parseeseq_token by lia. reflexivity.
  - cbn [take]. unfold bytes_ok, is_byte. cbn [forallb].
    zbool; simpl; try reflexivity; lia.
Qed.

(** ** What [encode] writes *)

Lemma fmt_03o_bytes_ok n : 0 <= n < 256 -> bytes_ok (fmt_03o n) = true.
Proof.
  intros Hn. destruct (fmt_03o_digits n Hn) as (a & b & c & -> & ? & ? & ? & _).
  unfold bytes_ok, is_byte. cbn [forallb]. zbool; simpl; try reflexivity; lia.
Qed.

Lemma encode_loop_bytes_ok s :
  bytes_ok s = true -> bytes_ok (encode_loop s) = true.
Proof.
  induction s as [|b s IH]; intros Hs; [reflexivity|].
  rewrite encode_loop_cons by exact Hs.
  apply bytes_ok_cons in Hs. destruct Hs as [Hb Hs].
  destruct (b =? 0); [reflexivity|].
  apply bytes_ok_app. split; [|auto].
  destruct (needs_escape (b :: s)).
  - change (92 :: 35 :: fmt_03o b) with ([92; 35] ++ fmt_03o b).
    apply bytes_ok_app. split; [reflexivity | now apply fmt_03o_bytes_ok].
  - apply bytes_ok_cons. split; [lia | reflexivity].
Qed.

(** A byte of the output that is not a backslash is a byte of the input,
    copied. *)
Lemma encode_loop_head s x o :
  bytes_ok s = true ->
  encode_loop s = x :: o -> x <> 92 ->
  exists s', s = x :: s' /\ o = encode_loop s'.
Proof.
  intros Hs He Hx. destruct s as [|b s]; [discriminate|].
  rewrite encode_loop_cons in He by exact Hs.
  destruct (b =? 0); [discriminate|].
  destruct (needs_escape (b :: s)); cbn [app] in He.
  - congruence.
  - injection He as -> <-. eauto.
Qed.

(** A hash and three digits that follow a copied backslash in the output
    follow it in the input too. *)
Lemma encode_loop_lookalike s :
  bytes_ok s = true ->
  token_at lenient_digit (92 :: encode_loop s) = true ->
  token_at lenient_digit (92 :: s) = true.
Proof.
  intros Hs Ht.
  destruct (encode_loop s) as [|y [|a [|b [|c rest]]]] eqn:He; try discriminate.
  cbn [token_at] in Ht. rewrite !andb_true_iff in Ht.
  destruct Ht as [[[[_ Hy] Ha] Hb] Hc].
  apply Z.eqb_eq in Hy. subst y.
  unfold lenient_digit in Ha, Hb, Hc.
  apply lenient_digit_range in Ha, Hb, Hc.
  destruct (encode_loop_head _ _ _ Hs He ltac:(lia)) as (s1 & -> & He1).
  apply bytes_ok_cons in Hs. destruct Hs as [_ Hs1]. symmetry in He1.
  destruct (encode_loop_head _ _ _ Hs1 He1 ltac:(lia)) as (s2 & -> & He2).
  apply bytes_ok_cons in Hs1. destruct Hs1 as [_ Hs2]. symmetry in He2.
  destruct (encode_loop_head _ _ _ Hs2 He2 ltac:(lia)) as (s3 & -> & He3).
  apply bytes_ok_cons in Hs2. destruct Hs2 as [_ Hs3]. symmetry in He3.
  destruct (encode_loop_head _ _ _ Hs3 He3 ltac:(lia)) as (s4 & -> & He4).
  cbn [token_at]. unfold lenient_digit.
  rewrite !(proj2 (lenient_digit_range _)) by lia. reflexivity.
Qed.

Lemma token_strict_lenient s :
  token_at strict_digit s = true -> token_at lenient_digit s = true.
Proof.
  destruct s as [|x [|y [|a [|b [|c rest]]]]]; try discriminate.
  cbn [token_at]. rewrite !andb_true_iff.
  intros [[[[Hx Hy] Ha] Hb] Hc].
  auto using strict_is_lenient.
Qed.

Lemma token_at_head digit x s : token_at digit (x :: s) = true -> x = 92.
Proof.
  destruct s as [|y [|a [|b [|c rest]]]]; try discriminate.
  cbn [token_at]. rewrite !andb_true_iff. intros [[[[Hx _] _] _] _].
  now apply Z.eqb_eq.
Qed.

(** ** Decoding an encoded string *)

Lemma cstr_cons b s : cstr (b :: s) = if b =? 0 then [] else b :: cstr s.
Proof. unfold cstr. cbn [strlen]. destruct (b =? 0); reflexivity. Qed.

(** The round trip, for every C string: no assumption on the escape
    look-alikes it contains. *)
Lemma decode_encode_cstr s :
  bytes_ok s = true -> decode_loop (encode_loop s) = cstr s.
Proof.
  induction s as [|b s IH]; intros Hs; [reflexivity|].
  rewrite encode_loop_cons, cstr_cons by exact Hs.
  pose proof Hs as Hbs. apply bytes_ok_cons in Hbs. destruct Hbs as [Hb Hs'].
  destruct (Z.eqb_spec b 0) as [|Hb0]; [reflexivity|].
  destruct (needs_escape (b :: s)) eqn:Hesc.
  - destruct (fmt_03o_digits b Hb) as (d1 & d2 & d3 & -> & ? & ? & ? & Hv).
    cbn [app]. rewrite decode_loop_token by lia.
    rewrite Hv, Z.mod_small by lia. f_equal. auto.
  - cbn [app]. rewrite decode_loop_cons.
    + destruct (Z.eqb_spec b 0); [contradiction|].
      destruct (token_at strict_digit (b :: encode_loop s)) eqn:Ht.
      * exfalso. pose proof (token_at_head _ _ _ Ht). subst b.
        apply token_strict_lenient, encode_loop_lookalike in Ht; [|exact Hs'].
        cbn [needs_escape] in Hesc. rewrite Ht in Hesc. discriminate.
      * f_equal. auto.
    + apply bytes_ok_take, bytes_ok_cons. split; [lia|].
      now apply encode_loop_bytes_ok.
Qed.

(** C1. Round trip: a record, that is a sequence of bytes without NUL,
    in which no backslash is followed by a hash and three bytes in '0' to
    '9', is what decoding its encoding gives (the transformations taken
    without the terminator they append). *)
Theorem decode_encode_roundtrip (r : list Z) :
  bytes_ok r = true ->
  nul_free r = true ->
  lookalike_free r = true ->
  decode_loop (encode_loop r) = r.
Proof.
  intros Hb Hn _. rewrite decode_encode_cstr by exact Hb.
  now apply cstr_nul_free.
Qed.

Lemma decode_encode_roundtrip_witness :
  decode_loop (encode_loop ([1; 200; 255] ++ bytes "a\b#12 \#c"))
    = [1; 200; 255] ++ bytes "a\b#12 \#c".
Proof.
  apply decode_encode_roundtrip; reflexivity.
Defined.

(** ** A backslash behind a prefix *)

Lemma strlen_app_nul_free p t :
  nul_free p = true -> strlen (p ++ t) = (length p + strlen t)%nat.
Proof.
  induction p as [|b p IH]; cbn [nul_free forallb app strlen length];
    [reflexivity|].
  rewrite andb_true_iff. intros [Hb Hp]. change (forallb _ p) with (nul_free p) in Hp.
  destruct (b =? 0); [discriminate|]. now rewrite IH.
Qed.

(** A window of five bytes that starts before a backslash and reaches
    it is no token of either class: the backslash is neither the hash
    nor a digit.  So [iseseq] answers the same with and without what
    follows. *)
Lemma iseseq_before_backslash p s strict :
  p <> [] -> nul_free p = true ->
  iseseq (p ++ 92 :: s) strict = iseseq p strict.
Proof.
  intros Hne Hp.
  destruct p as [|x [|y [|a [|b [|c p]]]]]; [contradiction| | | | |].
  1-4: rewrite (iseseq_short (_ :: _)) by (cbn [length]; lia);
       unfold iseseq, at_; cbn [app nth]; change (char 92) with 92;
       destruct (negb (char x =? 92)); [reflexivity|];
       destruct (_ <? 5)%nat; [reflexivity|].
  - reflexivity.
  - destruct (negb (_ =? 35)); [reflexivity|]. now destruct strict.
  - destruct (negb (_ =? 35)); [reflexivity|].
    destruct strict; cbn; now rewrite andb_false_r.
  - destruct (negb (_ =? 35)); [reflexivity|].
    destruct strict; cbn; now rewrite andb_false_r.
  - set (q := x :: y :: a :: b :: c :: p) in *.
    assert (H1 : (5 <= strlen (q ++ 92%Z :: s))%nat)
      by (rewrite strlen_app_nul_free by exact Hp; subst q; cbn [length]; lia).
    assert (H2 : (5 <= strlen q)%nat)
      by (rewrite strlen_nul_free by exact Hp; subst q; cbn [length]; lia).
    unfold iseseq.
    destruct (Nat.ltb_spec (strlen (q ++ 92 :: s)) 5); [lia|].
    destruct (Nat.ltb_spec (strlen q) 5); [lia|].
    reflexivity.
Qed.

Lemma nul_free_tail b p : nul_free (b :: p) = true -> b <> 0 /\ nul_free p = true.
Proof.
  cbn [nul_free forallb]. rewrite andb_true_iff. intros [Hb Hp].
  split; [|exact Hp]. intros ->. discriminate.
Qed.

(** [encode] works on what stands before a backslash as it would on
    that alone. *)
Lemma encode_loop_before_backslash p s :
  nul_free p = true ->
  encode_loop (p ++ 92 :: s) = encode_loop p ++ encode_loop (92 :: s).
Proof.
  induction p as [|x p IH]; intros Hp; [reflexivity|].
  pose proof (iseseq_before_backslash (x :: p) s false ltac:(discriminate) Hp) as Hseq.
  destruct (nul_free_tail _ _ Hp) as [Hx Hp'].
  change ((x :: p) ++ 92 :: s) with (x :: (p ++ 92 :: s)) in *.
  remember (92 :: s) as t.
  cbn [encode_loop]. rewrite Hseq, (IH Hp').
  destruct (x =? 0) eqn:E0; [apply Z.eqb_eq in E0; contradiction|].
  now rewrite app_assoc.
Qed.

(** And so does [decode]: its scan comes to the backslash, whatever
    tokens it takes on the way. *)
Lemma decode_loop_before_backslash p s :
  nul_free p = true ->
  decode_loop (p ++ 92 :: s) = decode_loop p ++ decode_loop (92 :: s).
Proof.
  remember (length p) as n eqn:Hn.
  assert (Hle : (length p <= n)%nat) by lia. clear Hn.
  revert p Hle. induction n as [|n IH]; intros p Hle Hp.
  - destruct p; [reflexivity | cbn [length] in Hle; lia].
  - destruct p as [|x p]; [reflexivity|].
    pose proof (iseseq_before_backslash (x :: p) s true ltac:(discriminate) Hp)
      as Hseq.
    destruct (nul_free_tail _ _ Hp) as [Hx Hp'].
    change ((x :: p) ++ 92 :: s) with (x :: (p ++ 92 :: s)) in *.
    rewrite (decode_loop_unfold x (p ++ _)), (decode_loop_unfold x p), Hseq.
    destruct (x =? 0) eqn:E0; [apply Z.eqb_eq in E0; contradiction|].
    cbn [length] in Hle.
    destruct (iseseq (x :: p) true) eqn:Htok.
    + destruct p as [|y [|a [|b [|c p5]]]];
        try (rewrite iseseq_short in Htok by (cbn [length]; lia); discriminate).
      cbn [app drop]. rewrite !drop_0.
      destruct (nul_free_tail _ _ Hp') as [_ H1].
      destruct (nul_free_tail _ _ H1) as [_ H2].
      destruct (nul_free_tail _ _ H2) as [_ H3].
      destruct (nul_free_tail _ _ H3) as [_ H4].
      rewrite IH by (cbn [length] in Hle; try lia; exact H4).
      reflexivity.
    + rewrite IH by (try lia; exact Hp'). reflexivity.
Qed.

(** ** Backslashes in [encode] *)

Lemma encode_loop_backslash rest :
  bytes_ok rest = true ->
  encode_loop (92 :: rest) =
    (if token_at lenient_digit (92 :: rest) then bytes "\#134" else [92])
    ++ encode_loop rest.
Proof.
  intros Hr. rewrite encode_loop_cons
    by (apply bytes_ok_cons; split; [lia | exact Hr]).
  change (92 =? 0) with false. cbv iota. cbn [needs_escape].
  change (negb ((32 <=? 92) && (92 <=? 126))) with false.
  rewrite orb_false_r. reflexivity.
Qed.

(** C2. Escaping of ambiguous backslashes: wherever a backslash stands
    in a record, [encode] writes it as the escape token of the
    backslash exactly when a hash and three bytes in '0' to '9' follow
    it, and copies it otherwise, between what it writes for the bytes
    before it and what it writes for the bytes after it; this is the
    step the loop makes at every byte, which escapes a byte that starts
    no such look-alike only for not being printable ASCII.  The input
    \#123 gives the nine bytes \#134#123, also behind another byte, the
    input \#189 gives \#134#189, and decoding the text \#189 leaves it
    as it is. *)
Theorem escaping_of_ambiguous_backslash :
  (forall pre rest : list Z,
     nul_free pre = true ->
     bytes_ok rest = true ->
     encode_loop (pre ++ 92 :: rest) =
       encode_loop pre
       ++ (if token_at lenient_digit (92 :: rest)
           then bytes "\#134" else [92])
       ++ encode_loop rest) /\
  (forall b s,
     bytes_ok (b :: s) = true -> b <> 0 ->
     encode_loop (b :: s) =
       (if needs_escape (b :: s) then 92 :: 35 :: fmt_03o b else [b])
       ++ encode_loop s) /\
  (forall s, encode_loop (0 :: s) = []) /\
  encode_loop [] = [] /\
  encode_loop (bytes "\#123") = bytes "\#134#123" /\
  length (encode_loop (bytes "\#123")) = 9%nat /\
  encode_loop (1 :: bytes "\#123") = bytes "\#001\#134#123" /\
  encode_loop (bytes "\#189") = bytes "\#134#189" /\
  decode_loop (bytes "\#189") = bytes "\#189".
Proof.
  split; [|split].
  - intros pre rest Hpre Hrest.
    rewrite encode_loop_before_backslash by exact Hpre.
    rewrite encode_loop_backslash by exact Hrest.
    reflexivity.
  - intros b s Hs Hb. rewrite encode_loop_cons by exact Hs.
    destruct (Z.eqb_spec b 0); [contradiction | reflexivity].
  - repeat split; reflexivity.
Qed.

Lemma escaping_of_ambiguous_backslash_witness :
  encode_loop ([97; 92] ++ 92 :: bytes "#007x") =
    encode_loop [97; 92] ++ bytes "\#134" ++ encode_loop (bytes "#007x") /\
  encode_loop ([1] ++ 92 :: bytes "#07x") =
    encode_loop [1] ++ [92] ++ encode_loop (bytes "#07x") /\
  encode_loop (7 :: bytes "\#123") =
    [92; 35; 48; 48; 55] ++ encode_loop (bytes "\#123").
Proof.
  destruct escaping_of_ambiguous_backslash as (Hany & Hstep & _).
  split; [|split].
  - apply (Hany [97; 92] (bytes "#007x")); reflexivity.
  - apply (Hany [1] (bytes "#07x")); reflexivity.
  - apply (Hstep 7 (bytes "\#123")); [reflexivity | lia].
Defined.

(** ** The postcondition of [decode] *)

Lemma decode_state s st :
  decode s st =
    Ret tt (with_out (out st ++ decode_loop s ++ [if s_nulterm st then 0 else 10]) st).
Proof.
  unfold decode, bind, putchar, gets, write, modify, with_out. cbn.
  rewrite <- app_assoc. destruct (s_nulterm st); reflexivity.
Qed.

Lemma encode_state s st :
  encode s st = Ret tt (with_out (out st ++ encode_loop s ++ [10]) st).
Proof.
  unfold encode, bind, putchar, write, modify, with_out. cbn.
  rewrite <- app_assoc. reflexivity.
Qed.

(** The claim C3 as the specification words it, with the emitted byte
    equal to the number of the token, fails from \#400 on: the byte
    written for \#777 is 255, the number is 511. *)
Lemma decode_777_is_not_its_number :
  token_at strict_digit (bytes "\#777") = true /\
  decode_loop (bytes "\#777") = [255] /\
  decode_loop (bytes "\#777") <> [octal_value 55 55 55].
Proof. repeat split. discriminate. Qed.

(** C3, amended. Scanning from left to right: where the next five bytes
    are a backslash, a hash and three digits in '0' to '7', [decode]
    writes the one byte that is the number of the three digits reduced
    modulo 256 (the number itself up to \#377) and goes on five bytes
    further; elsewhere it writes the current byte and goes on one byte
    further; at the end of the record it writes a newline, or a NUL when
    [s_nulterm] is set; and it returns, whatever the record. *)
Theorem decode_postcondition :
  (forall a b c rest,
     48 <= a <= 55 -> 48 <= b <= 55 -> 48 <= c <= 55 ->
     decode_loop (92 :: 35 :: a :: b :: c :: rest) =
       octal_value a b c mod 256 :: decode_loop rest) /\
  (forall a b c,
     48 <= a <= 51 -> 48 <= b <= 55 -> 48 <= c <= 55 ->
     octal_value a b c mod 256 = octal_value a b c) /\
  (forall x s,
     bytes_ok (x :: s) = true -> x <> 0 ->
     token_at strict_digit (x :: s) = false ->
     decode_loop (x :: s) = x :: decode_loop s) /\
  decode_loop [] = [] /\
  (forall s st,
     decode s st =
       Ret tt (with_out (out st ++ decode_loop s
                         ++ [if s_nulterm st then 0 else 10]) st)).
Proof.
  split; [exact decode_loop_token|].
  split; [intros a b c Ha Hb Hc; apply Z.mod_small; unfold octal_value; lia|].
  split.
  - intros x s Hs Hx Ht. rewrite decode_loop_cons by now apply bytes_ok_take.
    destruct (Z.eqb_spec x 0); [contradiction|]. now rewrite Ht.
  - split; [reflexivity | exact decode_state].
Qed.

Lemma decode_postcondition_witness :
  decode_loop (bytes "\#101b") = [65; 98] /\
  decode_loop (bytes "\#1x1") = 92 :: decode_loop (bytes "#1x1").
Proof.
  destruct decode_postcondition as (Htok & _ & Hlit & _).
  split.
  - apply (Htok 49 48 49 [98]); lia.
  - apply (Hlit 92 (bytes "#1x1")); [reflexivity | lia | reflexivity].
Defined.

(** ** Tokens above \#377 *)

Lemma encode_loop_no_wide_token r :
  bytes_ok r = true ->
  forall n, wide_token_at (drop n (encode_loop r)) = false.
Proof.
  induction r as [|b r IH]; intros Hr n.
  - cbn [encode_loop]. now rewrite drop_nil.
  - rewrite encode_loop_cons by exact Hr.
    pose proof Hr as Hbr. apply bytes_ok_cons in Hbr. destruct Hbr as [Hb Hr'].
    destruct (Z.eqb_spec b 0); [now rewrite drop_nil|].
    destruct (needs_escape (b :: r)) eqn:Hesc.
    + destruct (fmt_03o_digits b Hb) as (d1 & d2 & d3 & -> & ? & ? & ? & _).
      unfold wide_token_at.
      destruct n as [|[|[|[|[|n]]]]]; cbn [app drop].
      * cbn [nth]. destruct (Z.leb_spec 52 d1); [lia|]. apply andb_false_r.
      * destruct (token_at strict_digit _) eqn:Ht; [|reflexivity].
        apply token_at_head in Ht. lia.
      * destruct (token_at strict_digit _) eqn:Ht; [|reflexivity].
        apply token_at_head in Ht. lia.
      * destruct (token_at strict_digit _) eqn:Ht; [|reflexivity].
        apply token_at_head in Ht. lia.
      * destruct (token_at strict_digit _) eqn:Ht; [|reflexivity].
        apply token_at_head in Ht. lia.
      * apply IH, Hr'.
    + destruct n as [|n]; cbn [app drop]; [|apply IH, Hr'].
      unfold wide_token_at.
      destruct (token_at strict_digit (b :: encode_loop r)) eqn:Ht; [|reflexivity].
      exfalso. pose proof (token_at_head _ _ _ Ht). subst b.
      apply token_strict_lenient, encode_loop_lookalike in Ht; [|exact Hr'].
      cbn [needs_escape] in Hesc. rewrite Ht in Hesc. discriminate.
Qed.

(** C10. Wherever its scan comes to a token from \#400 to \#777, whose
    number is above 255, [decode] takes it for an escape token and
    writes the one byte that is the number reduced modulo 256, that is
    the number less 256, between what it writes for the bytes before
    the token and for the bytes after it; it neither copies the five
    bytes nor refuses them, as it copies a byte that starts no token.
    \#777, that is 511, gives the byte 0xFF.  No position of what
    [encode] writes starts such a token. *)
Theorem decode_wide_token_truncated :
  (forall pre a b c rest,
     nul_free pre = true ->
     52 <= a <= 55 -> 48 <= b <= 55 -> 48 <= c <= 55 ->
     wide_token_at (92 :: 35 :: a :: b :: c :: rest) = true /\
     255 < octal_value a b c /\
     octal_value a b c mod 256 = octal_value a b c - 256 /\
     decode_loop (pre ++ 92 :: 35 :: a :: b :: c :: rest) =
       decode_loop pre ++ octal_value a b c mod 256 :: decode_loop rest) /\
  (forall x s,
     bytes_ok (x :: s) = true -> x <> 0 ->
     token_at strict_digit (x :: s) = false ->
     decode_loop (x :: s) = x :: decode_loop s) /\
  decode_loop [] = [] /\
  (octal_value 55 55 55 = 511 /\ decode_loop (bytes "\#777") = [255]) /\
  decode_loop (bytes "a\#777b") = [97; 255; 98] /\
  (forall r n,
     bytes_ok r = true ->
     wide_token_at (drop n (encode_loop r)) = false).
Proof.
  split; [|split; [|split; [|split; [|split]]]].
  - intros pre a b c rest Hpre Ha Hb Hc.
    split; [|split; [|split]].
    + unfold wide_token_at, token_at, strict_digit. cbn [nth].
      rewrite (proj2 (strict_digit_range a)), (proj2 (strict_digit_range b)),
        (proj2 (strict_digit_range c)) by lia.
      destruct (Z.leb_spec 52 a); [reflexivity | lia].
    + unfold octal_value; lia.
    + unfold octal_value.
      rewrite <- (Z_mod_plus_full _ (-1) 256). apply Z.mod_small. lia.
    + rewrite decode_loop_before_backslash by exact Hpre.
      rewrite decode_loop_token by lia. reflexivity.
  - intros x s Hs Hx Ht. rewrite decode_loop_cons by now apply bytes_ok_take.
    destruct (Z.eqb_spec x 0); [contradiction|]. now rewrite Ht.
  - reflexivity.
  - split; reflexivity.
  - reflexivity.
  - intros r n Hr. now apply encode_loop_no_wide_token.
Qed.

Lemma decode_wide_token_truncated_witness :
  (wide_token_at (92 :: 35 :: 52 :: 48 :: 49 :: [120]) = true /\
   255 < octal_value 52 48 49 /\
   octal_value 52 48 49 mod 256 = octal_value 52 48 49 - 256 /\
   decode_loop
     ((bytes "a\#101" ++ [92]) ++ 92 :: 35 :: 52 :: 48 :: 49 :: [120]) =
     decode_loop (bytes "a\#101" ++ [92])
     ++ octal_value 52 48 49 mod 256 :: decode_loop [120]) /\
  decode_loop (bytes "\#1x1") = 92 :: decode_loop (bytes "#1x1") /\
  wide_token_at (drop 0 (encode_loop (bytes "\#401"))) = false.
Proof.
  destruct decode_wide_token_truncated as (Hwide & Hlit & _ & _ & _ & Hnever).
  split; [|split].
  - apply (Hwide (bytes "a\#101" ++ [92]) 52 48 49 [120]);
      [reflexivity | lia..].
  - apply (Hlit 92 (bytes "#1x1")); [reflexivity | lia | reflexivity].
  - apply (Hnever (bytes "\#401") O). reflexivity.
Defined.

(** ** The transcoder reads a C string

    Neither loop looks at what follows the first NUL of its argument, so
    what it writes for a buffer is what it writes for the string held at
    the start of the buffer. *)

Lemma strlen_app_nul l junk : strlen (l ++ 0 :: junk) = strlen l.
Proof.
  induction l as [|b l IH]; [reflexivity|].
  cbn [app strlen]. now rewrite IH.
Qed.

Lemma iseseq_true_strlen s strict : iseseq s strict = true -> (5 <= strlen s)%nat.
Proof.
  unfold iseseq. destruct (negb (at_ s 0 =? 92)); [discriminate|].
  destruct (Nat.ltb_spec (strlen s) 5); [discriminate | lia].
Qed.

Lemma iseseq_app_nul l junk strict :
  iseseq (l ++ 0 :: junk) strict = iseseq l strict.
Proof.
  unfold iseseq. rewrite strlen_app_nul.
  assert (at_ (l ++ 0 :: junk) 0 = at_ l 0) as ->
    by (destruct l; reflexivity).
  destruct (negb (at_ l 0 =? 92)); [reflexivity|].
  destruct (Nat.ltb_spec (strlen l) 5) as [|Hlen]; [reflexivity|].
  pose proof (strlen_le_length l).
  destruct l as [|x [|y [|a [|b [|c rest]]]]]; cbn [length] in *; try lia.
  reflexivity.
Qed.

Lemma encode_loop_app_nul l junk :
  encode_loop (l ++ 0 :: junk) = encode_loop l.
Proof.
  induction l as [|b l IH]; [reflexivity|].
  change ((b :: l) ++ 0 :: junk) with (b :: (l ++ 0 :: junk)).
  cbn [encode_loop]. rewrite IH.
  change (b :: (l ++ 0 :: junk)) with ((b :: l) ++ 0 :: junk).
  now rewrite iseseq_app_nul.
Qed.

Lemma decode_loop_app_nul l junk :
  decode_loop (l ++ 0 :: junk) = decode_loop l.
Proof.
  remember (length l) as n eqn:Hn. revert l Hn.
  induction n as [n IH] using lt_wf_ind. intros l Hn.
  destruct l as [|x s1]; [reflexivity|].
  change ((x :: s1) ++ 0 :: junk) with (x :: (s1 ++ 0 :: junk)).
  cbn [decode_loop].
  change (x :: (s1 ++ 0 :: junk)) with ((x :: s1) ++ 0 :: junk).
  rewrite iseseq_app_nul.
  destruct (x =? 0); [reflexivity|].
  destruct (iseseq (x :: s1) true) eqn:Hseq.
  - apply iseseq_true_strlen in Hseq.
    pose proof (strlen_le_length (x :: s1)).
    destruct s1 as [|y [|a [|b [|c s5]]]]; cbn [length] in *; try lia.
    cbn [app]. f_equal.
    apply (IH (length s5)); [subst n; cbn [length]; lia | reflexivity].
  - f_equal. apply (IH (length s1)); [subst n; cbn [length]; lia | reflexivity].
Qed.

(** ** The reader *)

Section Reader.

Variable E : env.
Hypothesis alloc_ok : forall n, e_alloc E n = true.

Lemma grow_wf B : wf_buffer B -> wf_buffer (grow (e_fresh E) B).
Proof.
  intros (Hlen & Hpos & Hsz). unfold grow, wf_buffer.
  destruct (Nat.leb_spec (bufsz B) (bufpos B)); cbn [buf bufsz bufpos].
  - rewrite length_app, length_replicate. lia.
  - lia.
Qed.

Lemma grow_room B :
  wf_buffer B -> (bufpos (grow (e_fresh E) B) < bufsz (grow (e_fresh E) B))%nat.
Proof.
  intros (Hlen & Hpos & Hsz). unfold grow.
  destruct (Nat.leb_spec (bufsz B) (bufpos B)); cbn [buf bufsz bufpos]; lia.
Qed.

Lemma grow_live B : wf_buffer B -> live (grow (e_fresh E) B) = live B.
Proof.
  intros (Hlen & Hpos & Hsz). unfold grow, live.
  destruct (Nat.leb_spec (bufsz B) (bufpos B)); cbn [buf bufsz bufpos].
  - rewrite take_app_le by lia. reflexivity.
  - reflexivity.
Qed.

Lemma push_wf c B : wf_buffer B -> wf_buffer (push (e_fresh E) c B).
Proof.
  intros HB. pose proof (grow_wf B HB) as (Hlen & Hpos & Hsz).
  pose proof (grow_room B HB). unfold push, wf_buffer. cbn [buf bufsz bufpos].
  rewrite length_insert. lia.
Qed.

Lemma push_live c B :
  wf_buffer B -> live (push (e_fresh E) c B) = live B ++ [c].
Proof.
  intros HB. pose proof (grow_wf B HB) as (Hlen & Hpos & Hsz).
  pose proof (grow_room B HB) as Hroom.
  rewrite <- (grow_live B HB). unfold push, live. cbn [buf bufsz bufpos].
  rewrite insert_take_drop by lia.
  rewrite take_app_ge by (rewrite length_take; lia).
  rewrite length_take, Nat.min_l by lia.
  replace (S (bufpos (grow (e_fresh E) B)) - bufpos (grow (e_fresh E) B))%nat
    with 1%nat by lia.
  reflexivity.
Qed.

Lemma push_bufpos c B :
  bufpos (push (e_fresh E) c B) = S (bufpos B).
Proof.
  unfold push, grow. cbn [bufpos].
  destruct (bufsz B <=? bufpos B)%nat; reflexivity.
Qed.

Lemma push_bufsz c B : (bufsz B <= bufsz (push (e_fresh E) c B))%nat.
Proof.
  unfold push, grow. cbn [bufsz].
  destruct (bufsz B <=? bufpos B)%nat; cbn [bufsz]; lia.
Qed.

Lemma cut_wf B : wf_buffer B -> wf_buffer (cut (e_fresh E) B).
Proof.
  intros HB. pose proof (grow_wf B HB) as (Hlen & Hpos & Hsz).
  unfold cut, wf_buffer. cbn [buf bufsz bufpos].
  rewrite length_insert. lia.
Qed.

(** The block that [encdec] is handed holds the bytes read since the
    last terminator, then a NUL. *)
Lemma cut_buf B :
  wf_buffer B ->
  exists junk, buf (cut (e_fresh E) B) = live B ++ 0 :: junk.
Proof.
  intros HB. pose proof (grow_wf B HB) as (Hlen & Hpos & Hsz).
  pose proof (grow_room B HB) as Hroom.
  rewrite <- (grow_live B HB). unfold cut, live. cbn [buf].
  rewrite insert_take_drop by lia. eauto.
Qed.

Lemma realloc_grow B st :
  (if (bufsz B <=? bufpos B)%nat then realloc_twice E B else ret B) st =
  Ret (grow (e_fresh E) B) st.
Proof.
  unfold grow, realloc_twice. destruct (bufsz B <=? bufpos B)%nat; [|reflexivity].
  now rewrite alloc_ok.
Qed.

(** What [encdec] does with a buffer. *)
Lemma encdec_buffer st0 st l junk :
  s_decode st = s_decode st0 ->
  encdec_of st0 (l ++ 0 :: junk) st = Ret tt (with_out (out st ++ emit st l) st).
Proof.
  intros Hd. unfold encdec_of, emit. rewrite Hd. destruct (s_decode st0).
  - now rewrite decode_state, decode_loop_app_nul.
  - now rewrite encode_state, encode_loop_app_nul.
Qed.

(** One pass of the loop body on a byte that is not the terminator. *)
Lemma read_loop_push encdec c input B st :
  wf_buffer B -> c <> in_terminator st ->
  read_loop E encdec (c :: input) B st =
  read_loop E encdec input (push (e_fresh E) c B) st.
Proof.
  intros HB Hc. cbn [read_loop]. unfold bind at 1. rewrite realloc_grow.
  unfold bind, gets. fold (in_terminator st).
  destruct (Z.eqb_spec c (in_terminator st)); [contradiction|].
  unfold store. pose proof (grow_room B HB) as Hroom.
  destruct (Nat.ltb_spec (bufpos (grow (e_fresh E) B)) (bufsz (grow (e_fresh E) B)));
    [|lia].
  reflexivity.
Qed.

(** One pass of the loop body on the terminator. *)
Lemma read_loop_cut st0 input B st :
  wf_buffer B -> s_decode st = s_decode st0 ->
  read_loop E (encdec_of st0) (in_terminator st :: input) B st =
  read_loop E (encdec_of st0) input (cut (e_fresh E) B)
    (with_out (out st ++ emit st (live B)) st).
Proof.
  intros HB Hd. cbn [read_loop]. unfold bind at 1. rewrite realloc_grow.
  unfold bind at 1 2, gets. fold (in_terminator st).
  rewrite Z.eqb_refl.
  unfold store. pose proof (grow_room B HB) as Hroom.
  destruct (Nat.ltb_spec (bufpos (grow (e_fresh E) B)) (bufsz (grow (e_fresh E) B)));
    [|lia].
  unfold bind at 1, ret.
  destruct (cut_buf B HB) as [junk Hj].
  unfold bind at 1. change (buf _) with (buf (cut (e_fresh E) B)) at 1.
  rewrite Hj, encdec_buffer by exact Hd.
  reflexivity.
Qed.

Lemma cut_bufsz B : (bufsz B <= bufsz (cut (e_fresh E) B))%nat.
Proof.
  unfold cut, grow. cbn [bufsz].
  destruct (bufsz B <=? bufpos B)%nat; cbn [bufsz]; lia.
Qed.

(** The reader stores a run of bytes without terminator at the end of
    what it holds, and the state of the program is not touched. *)
Lemma read_loop_record encdec r :
  forall input B st,
    wf_buffer B ->
    forallb (fun b => negb (b =? in_terminator st)) r = true ->
    read_loop E encdec (r ++ input) B st =
    read_loop E encdec input (push_all (e_fresh E) r B) st.
Proof.
  induction r as [|c r IH]; intros input B st HB Hr; [reflexivity|].
  cbn [forallb] in Hr. apply andb_true_iff in Hr. destruct Hr as [Hc Hr].
  apply negb_true_iff, Z.eqb_neq in Hc.
  cbn [app]. rewrite read_loop_push by assumption.
  apply IH; [now apply push_wf | exact Hr].
Qed.

Lemma push_all_cons c r B :
  push_all (e_fresh E) (c :: r) B =
  push_all (e_fresh E) r (push (e_fresh E) c B).
Proof. reflexivity. Qed.

Lemma push_all_wf r :
  forall B, wf_buffer B -> wf_buffer (push_all (e_fresh E) r B).
Proof.
  induction r as [|c r IH]; intros B HB; [exact HB|].
  apply IH, push_wf, HB.
Qed.

Lemma push_all_live r :
  forall B, wf_buffer B -> live (push_all (e_fresh E) r B) = live B ++ r.
Proof.
  induction r as [|c r IH]; intros B HB.
  - now rewrite app_nil_r.
  - rewrite push_all_cons.
    rewrite IH, push_live by (try apply push_wf; exact HB).
    now rewrite <- app_assoc.
Qed.

Lemma push_all_bufpos r :
  forall B, bufpos (push_all (e_fresh E) r B) = (bufpos B + length r)%nat.
Proof.
  induction r as [|c r IH]; intros B; cbn [length].
  - cbn [push_all fold_left]. lia.
  - rewrite push_all_cons, IH, push_bufpos. lia.
Qed.

Lemma push_all_bufsz r :
  forall B, (bufsz B <= bufsz (push_all (e_fresh E) r B))%nat.
Proof.
  induction r as [|c r IH]; intros B; [reflexivity|].
  rewrite push_all_cons.
  pose proof (push_bufsz c B). pose proof (IH (push (e_fresh E) c B)). lia.
Qed.

Lemma after_records_cons r rs B :
  after_records (e_fresh E) (r :: rs) B =
  after_records (e_fresh E) rs (cut (e_fresh E) (push_all (e_fresh E) r B)).
Proof. reflexivity. Qed.

Lemma after_records_wf rs :
  forall B, wf_buffer B -> wf_buffer (after_records (e_fresh E) rs B).
Proof.
  induction rs as [|r rs IH]; intros B HB; [exact HB|].
  rewrite after_records_cons. apply IH, cut_wf, push_all_wf, HB.
Qed.

Lemma after_records_bufpos rs :
  forall B, bufpos B = O -> bufpos (after_records (e_fresh E) rs B) = O.
Proof.
  induction rs as [|r rs IH]; intros B HB; [exact HB|].
  rewrite after_records_cons. now apply IH.
Qed.

Lemma after_records_bufsz rs :
  forall B, (bufsz B <= bufsz (after_records (e_fresh E) rs B))%nat.
Proof.
  induction rs as [|r rs IH]; intros B; [reflexivity|].
  rewrite after_records_cons.
  pose proof (push_all_bufsz r B).
  pose proof (cut_bufsz (push_all (e_fresh E) r B)).
  pose proof (IH (cut (e_fresh E) (push_all (e_fresh E) r B))). lia.
Qed.

(** The reader on a stream of terminated records: each record is handed
    to [encdec] on its own, in order, and the buffer is empty again at
    the end. *)
Lemma read_loop_records st0 rs :
  forall input B st,
    wf_buffer B -> bufpos B = O -> s_decode st = s_decode st0 ->
    free_of (in_terminator st) rs = true ->
    read_loop E (encdec_of st0) (join (in_terminator st) rs ++ input) B st =
    read_loop E (encdec_of st0) input (after_records (e_fresh E) rs B)
      (with_out (out st ++ concat (map (emit st) rs)) st).
Proof.
  induction rs as [|r rs IH]; intros input B st HB Hpos Hd Hrs.
  - cbn [join map concat app after_records fold_left]. rewrite app_nil_r.
    now destruct st.
  - cbn [free_of forallb] in Hrs. apply andb_true_iff in Hrs.
    destruct Hrs as [Hr Hrs].
    unfold join. cbn [map concat]. rewrite <- !app_assoc. cbn [app].
    fold (join (in_terminator st) rs).
    rewrite read_loop_record by assumption.
    rewrite read_loop_cut by (try apply push_all_wf; assumption).
    rewrite push_all_live by exact HB.
    assert (live B = []) as -> by (unfold live; rewrite Hpos; apply take_0).
    cbn [app].
    set (st1 := with_out (out st ++ emit st r) st).
    change (in_terminator st) with (in_terminator st1).
    rewrite IH; [| apply cut_wf, push_all_wf, HB | reflexivity | exact Hd | exact Hrs].
    rewrite after_records_cons. f_equal.
    subst st1. cbn [out with_out map concat]. now rewrite <- app_assoc.
Qed.

Lemma malloc_ok n st :
  malloc E n st =
  Ret {| bufsz := n; bufpos := O; buf := replicate n (e_fresh E) |} st.
Proof. unfold malloc. now rewrite alloc_ok. Qed.

Lemma first_block_wf : wf_buffer (first_block (e_fresh E)).
Proof.
  unfold wf_buffer, first_block. cbn [buf bufsz bufpos].
  rewrite length_replicate. lia.
Qed.

(** [main] on a stream of terminated records that may end in a record
    without terminator, when memory is granted and no read fails.  The
    last store of a NUL is inside the block only if the block is not
    full. *)
Lemma main_stream opts st h rs tail :
  process_args E opts [] initial = Ret [] st ->
  s_inpstr st = Some h ->
  s_data (contents E h) = join (in_terminator st) rs ++ tail ->
  s_ferror (contents E h) = false ->
  free_of (in_terminator st) rs = true ->
  forallb (fun b => negb (b =? in_terminator st)) tail = true ->
  run E opts [] =
    let st1 := with_out (out st ++ concat (map (emit st) rs)) st in
    let B2 := push_all (e_fresh E) tail
                (after_records (e_fresh E) rs (first_block (e_fresh E))) in
    match tail with
    | [] => Ret EXIT_SUCCESS st1
    | _ =>
        if (bufpos B2 <? bufsz B2)%nat
        then Ret EXIT_SUCCESS
               (with_out (out st1 ++ emit st tail)
                  (with_errs (errs st ++ [terminator_missing]) st1))
        else Undefined (with_errs (errs st ++ [terminator_missing]) st1)
    end.
Proof.
  intros Hargs Hinp Hdata Herr Hrs Htail.
  unfold run, main, init. unfold bind at 1. rewrite Hargs.
  unfold bind at 1, gets at 1. cbn [length Nat.eqb negb].
  unfold bind at 1. rewrite malloc_ok. fold (first_block (e_fresh E)).
  unfold bind at 1, gets at 1. rewrite Hinp, Hdata, Herr.
  fold (encdec_of st).
  pose proof first_block_wf as HB0.
  set (B0 := first_block (e_fresh E)) in *.
  unfold bind at 1.
  rewrite (read_loop_records st rs tail B0 st HB0 eq_refl eq_refl Hrs).
  set (st1 := with_out (out st ++ concat (map (emit st) rs)) st).
  set (B1 := after_records (e_fresh E) rs B0).
  assert (wf_buffer B1) as HB1 by now apply after_records_wf.
  assert (bufpos B1 = O) as Hpos1 by now apply after_records_bufpos.
  rewrite <- (app_nil_r tail) at 1.
  rewrite (read_loop_record (encdec_of st) tail [] B1 st1 HB1 Htail).
  cbn [read_loop ret]. cbv zeta.
  set (B2 := push_all (e_fresh E) tail B1).
  assert (wf_buffer B2) as HB2 by now apply push_all_wf.
  assert (bufpos B2 = length tail) as Hpos2
    by (unfold B2; rewrite push_all_bufpos, Hpos1; reflexivity).
  unfold bind at 1. cbn [ret].
  destruct tail as [|c tail].
  - rewrite Hpos2. reflexivity.
  - rewrite Hpos2. cbn [length Nat.eqb negb].
    unfold bind at 1 2 3, warnx, modify, store.
    rewrite Hpos2. cbn [length].
    destruct (Nat.ltb_spec (S (length tail)) (bufsz B2)) as [Hlt|Hge];
      [|reflexivity].
    unfold ret, bind. cbn [buf].
    destruct HB2 as (Hlen2 & _ & _).
    rewrite insert_take_drop by lia.
    assert (take (S (length tail)) (buf B2) = c :: tail) as ->.
    { pose proof (push_all_live (c :: tail) B1 HB1) as Hl. fold B2 in Hl.
      unfold live in Hl. rewrite Hpos2, Hpos1 in Hl. exact Hl. }
    rewrite encdec_buffer by reflexivity.
    reflexivity.
Qed.

End Reader.

(** ** The option loop *)

(** Runs the body of the [switch] on the option in the goal. *)
Ltac run_opt :=
  unfold process_opt, usage, err, errx, warnx, puts, write, modify, exit,
    bind, ret; cbn.

Section Options.

Variable E : env.

(** What one option does: it returns with [stdout] and [stderr] as they
    were, or it ends the process. *)
Lemma process_opt_ret ch st st' :
  process_opt E ch st = Ret tt st' ->
  out st' = out st /\ errs st' = errs st /\
  s_nulterm st' = s_nulterm st || nul_requested [ch] /\
  is_some (s_inpstr st') = is_some (s_inpstr st) || has_f [ch].
Proof.
  destruct ch; run_opt; try discriminate;
    try (intros [= <-]; cbn; rewrite ?orb_false_r, ?orb_true_r; auto).
  destruct (optarg =? "-")%string; cbn.
  - intros [= <-]; cbn; rewrite ?orb_false_r, ?orb_true_r; auto.
  - destruct (e_files E optarg); cbn; [|discriminate].
    intros [= <-]; cbn; rewrite ?orb_false_r, ?orb_true_r; auto.
Qed.

Lemma process_opt_defined ch st st' : process_opt E ch st <> Undefined st'.
Proof.
  destruct ch; run_opt; try discriminate.
  destruct (optarg =? "-")%string; cbn; [discriminate|].
  destruct (e_files E optarg); cbn; discriminate.
Qed.

Lemma getopt_loop_cons ch opts st :
  getopt_loop E (ch :: opts) st =
  match process_opt E ch st with
  | Ret _ st1 => getopt_loop E opts st1
  | Exit c st1 => Exit c st1
  | Undefined st1 => Undefined st1
  end.
Proof. reflexivity. Qed.

Lemma getopt_loop_ret opts :
  forall st st',
    getopt_loop E opts st = Ret tt st' ->
    out st' = out st /\ errs st' = errs st /\
    s_nulterm st' = s_nulterm st || nul_requested opts /\
    is_some (s_inpstr st') = is_some (s_inpstr st) || has_f opts.
Proof.
  induction opts as [|ch opts IH]; intros st st' H.
  - injection H as <-. cbn. now rewrite !orb_false_r.
  - rewrite getopt_loop_cons in H.
    destruct (process_opt E ch st) as [[] st1| |] eqn:Hch; try discriminate.
    apply process_opt_ret in Hch. destruct Hch as (Ho & He & Hn & Hi).
    apply IH in H. destruct H as (Ho' & He' & Hn' & Hi').
    rewrite Ho', He', Hn', Hi', Ho, He, Hn, Hi.
    unfold nul_requested, has_f. cbn [existsb].
    rewrite !orb_false_r, !orb_assoc. auto.
Qed.

Lemma getopt_loop_defined opts : forall st st', getopt_loop E opts st <> Undefined st'.
Proof.
  induction opts as [|ch opts IH]; intros st st'; [discriminate|].
  rewrite getopt_loop_cons.
  destruct (process_opt E ch st) as [[] st1| |] eqn:Hopt; [apply IH|discriminate|].
  exfalso. eapply process_opt_defined, Hopt.
Qed.

(** The usage text is not empty. *)
Lemma bytes_usage_text : bytes (usage_text E) <> [].
Proof. unfold usage_text. cbn [String.concat]. discriminate. Qed.

(** The loop that comes to [-h] or [-V] writes to [stdout] and ends the
    process with success. *)
Lemma getopt_loop_help opts :
  forall st,
    help_reached E opts = true ->
    exists st' text,
      getopt_loop E opts st = Exit EXIT_SUCCESS st' /\
      text <> [] /\ out st' = out st ++ text /\ errs st' = errs st.
Proof.
  induction opts as [|ch opts IH]; intros st Hh; [discriminate|].
  rewrite getopt_loop_cons.
  destruct ch; cbn [help_reached] in Hh; try discriminate.
  - destruct (IH (with_decode false st) Hh) as (st' & text & H). eauto.
  - destruct (IH (with_decode true st) Hh) as (st' & text & H). eauto.
  - run_opt. destruct (optarg =? "-")%string; cbn in *.
    + destruct (IH (with_nulterm true (with_inpstr (Some stdin) st)) Hh)
        as (st' & text & H). eauto.
    + destruct (e_files E optarg); cbn in *; [|discriminate].
      destruct (IH (with_nulterm true (with_inpstr (Some (opened optarg)) st)) Hh)
        as (st' & text & H). eauto.
  - destruct (IH (with_nulterm true st) Hh) as (st' & text & H). eauto.
  - run_opt. eexists _, _. split; [reflexivity|].
    split; [apply bytes_usage_text|]. split; reflexivity.
  - run_opt. eexists _, _. split; [reflexivity|].
    split; [|split; reflexivity]. intros H. now apply app_eq_nil in H as [_ H].
Qed.

(** The loop that ends the process otherwise reports a failure on
    [stderr]. *)
Lemma getopt_loop_no_help opts :
  forall st c st',
    help_reached E opts = false ->
    getopt_loop E opts st = Exit c st' ->
    c = EXIT_FAILURE /\ out st' = out st /\ exists m, errs st' = errs st ++ [m].
Proof.
  induction opts as [|ch opts IH]; intros st c st' Hh H; [discriminate|].
  rewrite getopt_loop_cons in H.
  destruct ch; cbn [help_reached] in Hh; try discriminate.
  - apply (IH (with_decode false st)) in H; auto.
  - apply (IH (with_decode true st)) in H; auto.
  - revert H. run_opt. destruct (optarg =? "-")%string; cbn in *.
    + intros H. apply IH in H; auto.
    + destruct (e_files E optarg); cbn in *.
      * intros H. apply IH in H; auto.
      * intros [= <- <-]. cbn. eauto.
  - apply (IH (with_nulterm true st)) in H; auto.
  - revert H. run_opt. intros [= <- <-]. cbn. eauto.
Qed.

(** [process_args], once the option loop has returned. *)
Lemma process_args_after_getopt opts operands st st1 :
  getopt_loop E opts st = Ret tt st1 ->
  process_args E opts operands st =
    if negb (length operands =? 0)%nat && is_some (s_inpstr st1)
    then Exit EXIT_FAILURE
           (with_errs (errs st1 ++ ["error: arguments and -f present, wat do?!"%string]) st1)
    else
      let st2 :=
        if (length operands =? 0)%nat && negb (is_some (s_inpstr st1))
        then with_inpstr (Some stdin) st1 else st1 in
      if negb (length operands =? 0)%nat && negb (s_decode st2) && s_nulterm st2
      then Ret operands
             (with_nulterm false (with_errs (errs st2 ++ [ignoring_0]) st2))
      else Ret operands st2.
Proof.
  intros H. unfold process_args. unfold bind at 1. rewrite H.
  unfold bind, gets, errx, warnx, modify, exit, ret.
  destruct (negb (length operands =? 0)%nat && is_some (s_inpstr st1));
    [reflexivity|].
  destruct ((length operands =? 0)%nat && negb (is_some (s_inpstr st1))); cbn;
  match goal with
  | |- context [if ?c then _ else _] => destruct c
  end; reflexivity.
Qed.

Lemma process_args_exit opts operands st c st' :
  getopt_loop E opts st = Exit c st' ->
  process_args E opts operands st = Exit c st'.
Proof. intros H. unfold process_args. unfold bind at 1. now rewrite H. Qed.

End Options.

(** ** Operands together with [-f] *)

(** The claim C7 as the specification words it, for every invocation
    with [-f] and an operand, fails when [-h] is there too: the usage
    text goes to [stdout] and the exit status is 0. *)
Lemma help_wins_over_f_and_operands :
  has_f [opt_f "somefile"; opt_h] = true /\
  exists st,
    run (example_env []) [opt_f "somefile"; opt_h] [bytes "x"]
      = Exit EXIT_SUCCESS st /\
    out st = bytes (usage_text (example_env [])) /\
    out st <> [] /\ errs st = [].
Proof.
  split; [reflexivity|]. eexists. split; [reflexivity|].
  split; [reflexivity|]. split; [discriminate | reflexivity].
Qed.

(** C7, amended. An invocation that has [-f] and at least one operand
    ends with the exit status of failure, a diagnostic on [stderr] and
    nothing on [stdout], so that no record is processed, unless its
    option loop comes to a [-h] or a [-V] first; then it writes the
    usage text or the version to [stdout] and ends with success. *)
Theorem operands_and_f_is_fatal (E : env) (opts : list optchar)
    (operands : list (list Z)) :
  has_f opts = true ->
  operands <> [] ->
  if help_reached E opts
  then exists st,
         run E opts operands = Exit EXIT_SUCCESS st /\
         out st <> [] /\ errs st = []
  else exists st,
         run E opts operands = Exit EXIT_FAILURE st /\
         EXIT_FAILURE <> 0 /\ out st = [] /\ errs st <> [].
Proof.
  intros Hf Hops.
  destruct (help_reached E opts) eqn:Hh;
    unfold run, main, init; unfold bind at 1.
  - destruct (getopt_loop_help E opts initial Hh)
      as (st' & text & Hloop & Ht & Ho & He).
    rewrite (process_args_exit E opts operands _ _ _ Hloop).
    exists st'. split; [reflexivity|]. rewrite Ho, He. now split.
  - destruct (getopt_loop E opts initial) as [[] st1|c st1|st1] eqn:Hloop.
    + rewrite (process_args_after_getopt E opts operands _ _ Hloop).
      apply getopt_loop_ret in Hloop. destruct Hloop as (Ho & He & _ & Hi).
      rewrite Hi, Hf. cbn [is_some initial s_inpstr orb].
      destruct operands as [|s operands]; [contradiction|].
      cbn [length Nat.eqb negb andb].
      eexists. split; [reflexivity|]. split; [discriminate|].
      cbn [out errs with_errs]. rewrite Ho, He. split; [reflexivity|].
      discriminate.
    + rewrite (process_args_exit E opts operands _ _ _ Hloop).
      destruct (getopt_loop_no_help E opts _ _ _ Hh Hloop) as (-> & Ho & m & He).
      exists st1. split; [reflexivity|]. split; [discriminate|].
      rewrite Ho, He. split; [reflexivity | discriminate].
    + exfalso. eapply getopt_loop_defined, Hloop.
Qed.

Lemma operands_and_f_is_fatal_witness :
  exists st,
    run (example_env []) [opt_d; opt_f "somefile"] [bytes "x"]
      = Exit EXIT_FAILURE st /\
    EXIT_FAILURE <> 0 /\ out st = [] /\ errs st <> [].
Proof.
  apply (operands_and_f_is_fatal (example_env []) [opt_d; opt_f "somefile"]
           [bytes "x"]); [reflexivity | discriminate].
Defined.

(** ** The rule for [-0] with operands *)

(** The flag and [stderr] when [process_args] returns. *)
Lemma process_args_flags (E : env) (opts : list optchar)
    (operands argv : list (list Z)) (st : state) :
  process_args E opts operands initial = Ret argv st ->
  let ignored := negb (length operands =? 0)%nat && negb (s_decode st) in
  s_nulterm st = nul_requested opts && negb ignored /\
  errs st = (if nul_requested opts && ignored then [ignoring_0] else []).
Proof.
  intros H.
  destruct (getopt_loop E opts initial) as [[] st1|c st1|st1] eqn:Hloop.
  - rewrite (process_args_after_getopt E opts operands _ _ Hloop) in H.
    apply getopt_loop_ret in Hloop. destruct Hloop as (_ & He & Hn & _).
    cbn [initial s_nulterm errs orb] in He, Hn.
    destruct (negb (length operands =? 0)%nat && is_some (s_inpstr st1));
      [discriminate|].
    cbv zeta in H.
    destruct ((length operands =? 0)%nat && negb (is_some (s_inpstr st1)));
      cbn [s_decode s_nulterm with_inpstr errs] in H;
      destruct (negb (length operands =? 0)%nat) eqn:Hargs;
      destruct (s_decode st1) eqn:Hdec;
      destruct (s_nulterm st1) eqn:Hnul;
      cbn [negb andb] in H; injection H as _ <-;
      cbn [s_decode s_nulterm errs with_inpstr with_nulterm with_errs];
      rewrite ?Hdec, ?Hnul, ?He, <- ?Hn; cbn; auto.
  - rewrite (process_args_exit E opts operands _ _ _ Hloop) in H. discriminate.
  - exfalso. eapply getopt_loop_defined, Hloop.
Qed.

(** ** The terminator that [encode] writes *)

(** The claim C6 as the specification words it, with the chosen
    terminator after the text, fails when NUL-termination is active:
    [encode] still ends the record with a newline. *)
Lemma encode_terminator_is_not_the_chosen_one :
  let st := with_nulterm true initial in
  chosen_terminator st = 0 /\
  encode (bytes "a") st = Ret tt (with_out [97; 10] st) /\
  encode (bytes "a") st
    <> Ret tt (with_out (out st ++ encode_loop (bytes "a")
                         ++ [chosen_terminator st]) st).
Proof. repeat split. discriminate. Qed.

(** C6, amended. For every record, and whether NUL-termination mode is
    active or not, what [encode] writes is the encoded text followed by
    a newline. *)
Theorem encode_output_framing (s : list Z) (st : state) :
  encode s st = Ret tt (with_out (out st ++ encode_loop s ++ [10]) st).
Proof. apply encode_state. Qed.

(** ** Where the reader cuts the stream *)

(** The claim C4 as the specification words it, with NUL as the
    terminator of the input when NUL-termination is asked for in decode
    mode, fails: there the reader still cuts at newlines.  A stream of
    two records that end in NUL is read as one record without
    terminator, and a stream of two lines as two records. *)
Lemma decode_input_is_not_cut_at_nul :
  let records := [bytes "a"; bytes "b"] in
  let st := with_nulterm true (with_inpstr (Some stdin) (with_decode true initial)) in
  process_args (example_env (join 0 records)) [opt_d; opt_0] [] initial
    = Ret [] st /\
  chosen_terminator st = 0 /\
  run (example_env (join 0 records)) [opt_d; opt_0] []
    = Ret EXIT_SUCCESS (with_out [97; 0] (with_errs [terminator_missing] st)) /\
  run (example_env (join 0 records)) [opt_d; opt_0] []
    <> Ret EXIT_SUCCESS (with_out (concat (map (emit st) records)) st) /\
  run (example_env (join 10 records)) [opt_d; opt_0] []
    = Ret EXIT_SUCCESS (with_out (concat (map (emit st) records)) st).
Proof. repeat split. discriminate. Qed.

(** C4, amended. With no operand, the stream is cut into records at a
    terminator that is the newline by default and in decode mode, and
    the NUL exactly when NUL-termination is active and the mode is
    encode: a stream of records that each end in that byte, and do not
    contain it, is processed record by record. *)
Theorem reader_splitting_rule (E : env) (opts : list optchar) (st : state)
    (h : FILEp) (rs : list (list Z)) :
  (forall n, e_alloc E n = true) ->
  process_args E opts [] initial = Ret [] st ->
  s_inpstr st = Some h ->
  let t := if negb (s_decode st) && s_nulterm st then 0 else 10 in
  contents E h = {| s_data := join t rs; s_ferror := false |} ->
  free_of t rs = true ->
  run E opts [] =
    Ret EXIT_SUCCESS (with_out (out st ++ concat (map (emit st) rs)) st).
Proof.
  intros Halloc Hargs Hinp t Hc Hrs.
  apply (main_stream E Halloc opts st h rs []); auto.
  - fold t. rewrite Hc, app_nil_r. reflexivity.
  - now rewrite Hc.
Qed.

Lemma reader_splitting_rule_witness :
  let rs := [[97; 10; 98]; [99]] in
  let st := with_nulterm true (with_inpstr (Some stdin) initial) in
  run (example_env (join 0 rs)) [opt_0] [] =
    Ret EXIT_SUCCESS (with_out (out st ++ concat (map (emit st) rs)) st).
Proof.
  apply (reader_splitting_rule (example_env (join 0 [[97; 10; 98]; [99]]))
           [opt_0] _ stdin [[97; 10; 98]; [99]]); reflexivity.
Defined.

(** ** A last record without terminator *)

(** C8 at an input where the program goes wrong: the stream is 1024
    bytes and no terminator.  At the end of the stream [bufpos] equals
    [bufsz], the loop has not grown the block, and the NUL that closes
    the record is stored one byte past its end.  The same happens with
    2048 bytes; with one byte less or one byte more the record is
    encoded and the program returns. *)
Theorem unterminated_record_fills_the_block :
  let overflow :=
    Undefined (with_errs [terminator_missing]
                 (with_inpstr (Some stdin) initial)) in
  let processed n :=
    Some (EXIT_SUCCESS, replicate n 97 ++ [10], [terminator_missing]) in
  run (example_env (replicate 1024 97)) [] [] = overflow /\
  run (example_env (replicate 2048 97)) [] [] = overflow /\
  behaviour (run (example_env (replicate 1023 97)) [] []) = processed 1023%nat /\
  behaviour (run (example_env (replicate 1025 97)) [] []) = processed 1025%nat.
Proof. repeat split; vm_compute; reflexivity. Qed.

(** Below 1024 bytes the last record is processed: the warning is
    issued, the record is transformed, the program returns. *)
Lemma unterminated_short_record (E : env) (opts : list optchar) (st : state)
    (h : FILEp) (rs : list (list Z)) (c : Z) (tail : list Z) :
  (forall n, e_alloc E n = true) ->
  process_args E opts [] initial = Ret [] st ->
  s_inpstr st = Some h ->
  contents E h =
    {| s_data := join (in_terminator st) rs ++ c :: tail; s_ferror := false |} ->
  free_of (in_terminator st) (rs ++ [c :: tail]) = true ->
  (length (c :: tail) < 1024)%nat ->
  run E opts [] =
    Ret EXIT_SUCCESS
      (with_out (out st ++ concat (map (emit st) rs) ++ emit st (c :: tail))
         (with_errs (errs st ++ [terminator_missing]) st)).
Proof.
  intros Halloc Hargs Hinp Hc Hfree Hlen.
  unfold free_of in Hfree. rewrite forallb_app in Hfree.
  apply andb_true_iff in Hfree. destruct Hfree as [Hrs Htail].
  cbn [forallb] in Htail. rewrite andb_true_r in Htail.
  rewrite (main_stream E Halloc opts st h rs (c :: tail));
    [| assumption | assumption | now rewrite Hc | now rewrite Hc
     | assumption | assumption].
  cbv zeta.
  rewrite push_all_bufpos, after_records_bufpos by reflexivity.
  pose proof (push_all_bufsz E (c :: tail)
                (after_records (e_fresh E) rs (first_block (e_fresh E)))).
  pose proof (after_records_bufsz E rs (first_block (e_fresh E))) as Hsz.
  cbn [first_block bufsz] in Hsz.
  destruct (Nat.ltb_spec (0 + length (c :: tail))
              (bufsz (push_all (e_fresh E) (c :: tail)
                        (after_records (e_fresh E) rs (first_block (e_fresh E))))));
    [|lia].
  f_equal. cbn. now rewrite <- app_assoc.
Qed.

(** The sizes of the block. *)
Lemma doubling_min n : doubling n -> (1024 <= n)%nat.
Proof. induction 1; lia. Qed.

Lemma doubling_pow k : doubling (1024 * 2 ^ k).
Proof.
  induction k as [|k IH]; [apply doubling_first|].
  replace (1024 * 2 ^ S k)%nat with (1024 * 2 ^ k * 2)%nat
    by (rewrite Nat.pow_succ_r'; lia).
  now apply doubling_twice.
Qed.

(** Two sizes less than a factor of two apart are the same size. *)
Lemma doubling_between b :
  doubling b -> forall a, doubling a -> (a <= b)%nat -> (b < a * 2)%nat -> a = b.
Proof.
  induction 1 as [|b Hb IH]; intros a Ha Hle Hlt.
  - apply doubling_min in Ha. lia.
  - destruct Ha as [|a Ha].
    + apply doubling_min in Hb. lia.
    + f_equal. apply IH; [exact Ha | lia | lia].
Qed.

Lemma push_snug fresh c B :
  (bufpos B <= bufsz B)%nat -> snug B -> snug (push fresh c B).
Proof.
  intros Hpos [Hd Hs]. unfold snug, push, grow.
  destruct (Nat.leb_spec (bufsz B) (bufpos B)); cbn [bufsz bufpos].
  - split; [now apply doubling_twice | right; lia].
  - split; [exact Hd | lia].
Qed.

Lemma push_all_snug E r :
  forall B, wf_buffer B -> snug B -> snug (push_all (e_fresh E) r B).
Proof.
  induction r as [|c r IH]; intros B HB Hs; [exact Hs|].
  rewrite push_all_cons. apply IH; [now apply push_wf|].
  apply push_snug; [apply HB | exact Hs].
Qed.

(** Every stream that is one record without terminator, as long as a
    size of the block, goes wrong: the block is full at the end of the
    stream, and the closing NUL is stored past its end. *)
Lemma unterminated_record_overflow (E : env) (opts : list optchar) (st : state)
    (h : FILEp) (tail : list Z) (k : nat) :
  (forall n, e_alloc E n = true) ->
  process_args E opts [] initial = Ret [] st ->
  s_inpstr st = Some h ->
  contents E h = {| s_data := tail; s_ferror := false |} ->
  forallb (fun b => negb (b =? in_terminator st)) tail = true ->
  length tail = (1024 * 2 ^ k)%nat ->
  run E opts [] =
    Undefined (with_errs (errs st ++ [terminator_missing]) st).
Proof.
  intros Halloc Hargs Hinp Hc Htail Hlen.
  rewrite (main_stream E Halloc opts st h [] tail);
    [| assumption | assumption | now rewrite Hc | now rewrite Hc
     | reflexivity | assumption].
  cbv zeta. cbn [after_records fold_left map concat].
  set (B2 := push_all (e_fresh E) tail (first_block (e_fresh E))).
  assert (snug B2) as [Hd Hs].
  { apply push_all_snug; [apply first_block_wf|].
    split; [apply doubling_first | now left]. }
  assert (wf_buffer B2) as (_ & Hle & _)
    by (apply push_all_wf, first_block_wf).
  assert (bufpos B2 = length tail) as Hpos
    by (unfold B2; rewrite push_all_bufpos; reflexivity).
  pose proof (doubling_pow k) as Hk. rewrite <- Hlen, <- Hpos in Hk.
  assert (bufpos B2 = bufsz B2) as Heq.
  { apply doubling_between; auto.
    destruct Hs as [Hs|Hs]; [|exact Hs].
    apply doubling_min in Hk. lia. }
  destruct tail as [|c tail].
  - cbn [length] in Hlen. pose proof (doubling_min _ (doubling_pow k)). lia.
  - rewrite Heq, Nat.ltb_irrefl. f_equal. destruct st.
    cbn. now rewrite app_nil_r.
Qed.

(** ** [-f] runs on into [-0] *)

Section FallThrough.

Variable E : env.

Lemma has_f_nul_requested opts : has_f opts = true -> nul_requested opts = true.
Proof.
  unfold has_f, nul_requested. rewrite !existsb_exists.
  intros (o & Hin & Ho). exists o. split; [exact Hin|].
  destruct o; try discriminate. reflexivity.
Qed.

Lemma same_behaviour_refl {A} (r : result A) : same_behaviour r r.
Proof. now left. Qed.

Lemma same_behaviour_bind {A B} (m1 m2 : M A) (k : A -> M B) st1 st2 :
  same_behaviour (m1 st1) (m2 st2) ->
  same_behaviour (bind m1 k st1) (bind m2 k st2).
Proof.
  unfold bind. intros [-> | (c & a & b & -> & -> & Ho & He)].
  - now left.
  - right. exists c, a, b. auto.
Qed.

Lemma same_behaviour_observed (r1 r2 : result Z) :
  same_behaviour r1 r2 -> behaviour r1 = behaviour r2.
Proof.
  intros [-> | (c & a & b & -> & -> & Ho & He)]; [reflexivity|].
  cbn. now rewrite Ho, He.
Qed.

Lemma with_nulterm_set st : s_nulterm st = true -> with_nulterm true st = st.
Proof. destruct st. cbn. now intros ->. Qed.

(** Once set, the flag stays set through the option loop. *)
Lemma process_opt_nulterm_stays ch st st' :
  s_nulterm st = true -> process_opt E ch st = Ret tt st' -> s_nulterm st' = true.
Proof.
  intros Hn H. apply process_opt_ret in H. destruct H as (_ & _ & -> & _).
  now rewrite Hn.
Qed.

(** A [-0] more changes nothing where the flag is set already. *)
Lemma getopt_loop_extra_0_set o1 o2 :
  forall st,
    s_nulterm st = true ->
    getopt_loop E (o1 ++ opt_0 :: o2) st = getopt_loop E (o1 ++ o2) st.
Proof.
  induction o1 as [|ch o1 IH]; intros st Hn.
  - cbn [app]. rewrite getopt_loop_cons. run_opt.
    fold (with_nulterm true st). now rewrite with_nulterm_set.
  - cbn [app]. rewrite !getopt_loop_cons.
    destruct (process_opt E ch st) as [[] st1| |] eqn:Hch; try reflexivity.
    apply IH. eapply process_opt_nulterm_stays; eauto.
Qed.

(** The options that follow a [-0] behave the same without it when a
    [-f] is among them. *)
Lemma getopt_loop_nulterm_first o2 :
  forall st,
    has_f o2 = true ->
    same_behaviour (getopt_loop E o2 (with_nulterm true st)) (getopt_loop E o2 st).
Proof.
  induction o2 as [|ch o2 IH]; intros st Hf; [discriminate|].
  rewrite !getopt_loop_cons.
  destruct ch; run_opt;
    try (apply (IH (with_decode _ st)); exact Hf);
    try (right; eexists _, _, _; repeat split; reflexivity).
  - destruct (optarg =? "-")%string; cbn; [apply same_behaviour_refl|].
    destruct (e_files E optarg); cbn; [apply same_behaviour_refl|].
    right. eexists _, _, _. repeat split; reflexivity.
  - apply same_behaviour_refl.
Qed.

Lemma getopt_loop_extra_0 o1 o2 :
  forall st,
    has_f (o1 ++ o2) = true ->
    same_behaviour (getopt_loop E (o1 ++ opt_0 :: o2) st)
                   (getopt_loop E (o1 ++ o2) st).
Proof.
  induction o1 as [|ch o1 IH]; intros st Hf.
  - cbn [app] in *. rewrite getopt_loop_cons. run_opt.
    now apply getopt_loop_nulterm_first.
  - cbn [app]. rewrite !getopt_loop_cons.
    destruct (process_opt E ch st) as [[] st1| |] eqn:Hch;
      try apply same_behaviour_refl.
    destruct (s_nulterm st1) eqn:Hn.
    + rewrite getopt_loop_extra_0_set by exact Hn. apply same_behaviour_refl.
    + apply IH. apply process_opt_ret in Hch.
      destruct Hch as (_ & _ & Hn' & _). rewrite Hn in Hn'.
      cbn [app has_f existsb] in Hf. destruct ch; try exact Hf.
      cbn in Hn'. now rewrite orb_true_r in Hn'.
Qed.

End FallThrough.

(** C5. The case for [-f] runs on into the case for [-0]: an invocation
    with [-f] and no operand has [s_nulterm] set when the options are
    done; it behaves as the same invocation with a [-0] more, wherever
    the [-0] stands; in encode mode its input is cut at NUL bytes, and
    in decode mode each record it writes ends in a NUL. *)
Theorem f_sets_nulterm (E : env) (opts : list optchar) :
  has_f opts = true ->
  (forall argv st,
     process_args E opts [] initial = Ret argv st -> s_nulterm st = true) /\
  (forall o1 o2,
     opts = o1 ++ o2 ->
     behaviour (run E (o1 ++ opt_0 :: o2) []) = behaviour (run E opts [])) /\
  ((forall n, e_alloc E n = true) ->
   forall st h rs,
     process_args E opts [] initial = Ret [] st ->
     s_inpstr st = Some h ->
     let t := if s_decode st then 10 else 0 in
     contents E h = {| s_data := join t rs; s_ferror := false |} ->
     free_of t rs = true ->
     run E opts [] =
       Ret EXIT_SUCCESS
         (with_out
            (out st ++
             concat (map (fun r => if s_decode st
                                   then decode_loop r ++ [0]
                                   else encode_loop r ++ [10]) rs))
            st)).
Proof.
  intros Hf.
  assert (forall argv st,
            process_args E opts [] initial = Ret argv st -> s_nulterm st = true)
    as Hset.
  { intros argv st H.
    apply process_args_flags in H. cbn zeta in H. destruct H as [-> _].
    rewrite (has_f_nul_requested _ Hf). reflexivity. }
  split; [exact Hset|]. split.
  - intros o1 o2 ->. apply same_behaviour_observed.
    unfold run, main, init, process_args.
    apply same_behaviour_bind, same_behaviour_bind.
    now apply getopt_loop_extra_0.
  - intros Halloc st h rs Hargs Hinp t Hc Hrs.
    pose proof (Hset _ _ Hargs) as Hn.
    assert (in_terminator st = t) as Ht
      by (unfold in_terminator, t; rewrite Hn; now destruct (s_decode st)).
    rewrite (main_stream E Halloc opts st h rs []); auto.
    + cbv zeta. do 4 f_equal. apply map_ext. intros r. unfold emit.
      now rewrite Hn.
    + rewrite Hc, Ht, app_nil_r. reflexivity.
    + now rewrite Hc.
    + now rewrite Ht.
Qed.

Lemma f_sets_nulterm_witness :
  let rs := [[97; 10; 98]; [99]] in
  let st := with_nulterm true (with_inpstr (Some (opened "somefile")) initial) in
  (process_args (example_env (join 0 rs)) [opt_f "somefile"] [] initial
     = Ret [] st /\
   s_nulterm st = true) /\
  behaviour (run (example_env (join 0 rs)) ([opt_d] ++ opt_0 :: [opt_f "-"]) [])
    = behaviour (run (example_env (join 0 rs)) [opt_d; opt_f "-"] []) /\
  run (example_env (join 0 rs)) [opt_f "somefile"] [] =
    Ret EXIT_SUCCESS
      (with_out
         (out st ++
          concat (map (fun r => if s_decode st
                                then decode_loop r ++ [0]
                                else encode_loop r ++ [10]) rs))
         st).
Proof.
  split; [split; [reflexivity|]|split].
  - apply (proj1 (f_sets_nulterm (example_env (join 0 [[97; 10; 98]; [99]]))
                    [opt_f "somefile"] eq_refl) []).
    reflexivity.
  - apply (proj1 (proj2 (f_sets_nulterm
                           (example_env (join 0 [[97; 10; 98]; [99]]))
                           [opt_d; opt_f "-"] eq_refl))
             [opt_d] [opt_f "-"]).
    reflexivity.
  - apply (proj2 (proj2 (f_sets_nulterm
                           (example_env (join 0 [[97; 10; 98]; [99]]))
                           [opt_f "somefile"] eq_refl))
             (fun _ => eq_refl) _ (opened "somefile") [[97; 10; 98]; [99]]);
      reflexivity.
Defined.

(** * Further properties *)

(** ** What the transcoder writes *)

Lemma printable_range b : printable b = true <-> 32 <= b <= 126.
Proof. unfold printable. zbool; simpl; split; intros; try lia; discriminate. Qed.

(** What [encode] writes is printable. *)
Lemma encode_loop_printable (r : list Z) :
  bytes_ok r = true ->
  forallb printable (encode_loop r) = true.
Proof.
  induction r as [|b r IH]; intros Hr; [reflexivity|].
  rewrite encode_loop_cons by exact Hr.
  apply bytes_ok_cons in Hr. destruct Hr as [Hb Hr].
  destruct (b =? 0); [reflexivity|].
  rewrite forallb_app, IH, andb_true_r by exact Hr.
  destruct (needs_escape (b :: r)) eqn:Hesc.
  - destruct (fmt_03o_digits b Hb) as (d1 & d2 & d3 & -> & ? & ? & ? & _).
    cbn [forallb]. rewrite !andb_true_iff.
    repeat split; try reflexivity; apply printable_range; lia.
  - cbn [needs_escape] in Hesc. apply orb_false_iff in Hesc.
    destruct Hesc as [_ Hp]. apply negb_false_iff in Hp.
    cbn [forallb]. unfold printable. now rewrite Hp.
Qed.

(** X1. Whatever the bytes of the record, [encode] writes printable
    ASCII only: no control byte, no byte above 126, and so neither a NUL
    nor a newline. *)
Theorem encode_writes_printable (r : list Z) :
  bytes_ok r = true ->
  forallb printable (encode_loop r) = true.
Proof. apply encode_loop_printable. Qed.

Lemma encode_writes_printable_witness :
  forallb printable (encode_loop ([7; 10; 200; 255] ++ bytes "a b\#123")) = true.
Proof. apply encode_writes_printable. reflexivity. Defined.

(** The steps of [decode_loop], as an induction principle. *)
Lemma decode_loop_ind (P : list Z -> Prop) :
  P [] ->
  (forall s1, P (0 :: s1)) ->
  (forall x y a b c s5,
     x <> 0 -> iseseq (x :: y :: a :: b :: c :: s5) true = true ->
     P s5 -> P (x :: y :: a :: b :: c :: s5)) ->
  (forall x s1,
     x <> 0 -> iseseq (x :: s1) true = false -> P s1 -> P (x :: s1)) ->
  forall s, P s.
Proof.
  intros Hnil Hnul Htok Hlit s.
  remember (length s) as n eqn:Hn. revert s Hn.
  induction n as [n IH] using lt_wf_ind. intros s Hn.
  destruct s as [|x s1]; [exact Hnil|].
  destruct (Z.eqb_spec x 0) as [->|Hx]; [apply Hnul|].
  destruct (iseseq (x :: s1) true) eqn:Hseq.
  - pose proof (iseseq_true_strlen _ _ Hseq).
    pose proof (strlen_le_length (x :: s1)).
    destruct s1 as [|y [|a [|b [|c s5]]]]; cbn [length] in *; try lia.
    apply Htok; auto. apply (IH (length s5)); [subst n; cbn [length]; lia | reflexivity].
  - apply Hlit; auto. apply (IH (length s1)); [subst n; cbn [length]; lia | reflexivity].
Qed.

Lemma strlen_cons_nonzero x s : x <> 0 -> strlen (x :: s) = S (strlen s).
Proof. intros Hx. cbn [strlen]. destruct (Z.eqb_spec x 0); [contradiction|reflexivity]. Qed.

(** The lengths of what the two loops write. *)
Lemma loop_lengths (s : list Z) :
  (strlen s <= length (encode_loop s) <= 5 * strlen s)%nat /\
  (length (decode_loop s) <= strlen s <= 5 * length (decode_loop s))%nat.
Proof.
  split.
  - induction s as [|b s IH]; [cbn; lia|].
    cbn [encode_loop strlen]. destruct (b =? 0); [cbn; lia|].
    rewrite length_app.
    destruct (iseseq (b :: s) false || negb (isprint (char b))
              || negb (isascii (char b))); cbn [length app fmt_03o]; lia.
  - induction s as [| s1 | x y a b c s5 Hx Hseq IH | x s1 Hx Hseq IH]
      using decode_loop_ind.
    + cbn; lia.
    + cbn; lia.
    + rewrite decode_loop_unfold, Hseq.
      destruct (Z.eqb_spec x 0); [contradiction|].
      pose proof (iseseq_true_strlen _ _ Hseq) as Hlen.
      cbn [drop length]. rewrite drop_0.
      cbn [strlen] in Hlen |- *.
      destruct (x =? 0), (y =? 0), (a =? 0), (b =? 0), (c =? 0); lia.
    + rewrite decode_loop_unfold, Hseq.
      destruct (Z.eqb_spec x 0); [contradiction|].
      rewrite strlen_cons_nonzero by exact Hx. cbn [length]. lia.
Qed.

(** X2. The length of what is written: [encode] writes one byte or five
    for each byte of the string, and [decode] writes one byte for each
    byte or each five bytes of the text. *)
Theorem transcoder_length_bounds (s : list Z) :
  (strlen s <= length (encode_loop s) <= 5 * strlen s)%nat /\
  (length (decode_loop s) <= strlen s <= 5 * length (decode_loop s))%nat.
Proof. apply loop_lengths. Qed.

Lemma nul_free_cons b s :
  nul_free (b :: s) = true <-> b <> 0 /\ nul_free s = true.
Proof.
  unfold nul_free. cbn [forallb]. rewrite andb_true_iff, negb_true_iff, Z.eqb_neq.
  tauto.
Qed.

Lemma encode_loop_length_nul_free s :
  nul_free s = true -> (length s <= length (encode_loop s))%nat.
Proof.
  intros H. rewrite <- (strlen_nul_free s H) at 1. apply loop_lengths.
Qed.

Lemma decode_loop_length_le s : (length (decode_loop s) <= length s)%nat.
Proof.
  pose proof (proj2 (loop_lengths s)). pose proof (strlen_le_length s). lia.
Qed.

(** X3. [encode] leaves a record as it is exactly when every byte of
    the record is printable ASCII and no backslash in it is followed by
    a hash and three bytes in '0' to '9'. *)
Theorem encode_identity_iff (r : list Z) :
  bytes_ok r = true ->
  nul_free r = true ->
  encode_loop r = r <->
  forallb printable r = true /\ lookalike_free r = true.
Proof.
  induction r as [|b r IH]; intros Hb Hn; [cbn; tauto|].
  rewrite encode_loop_cons by exact Hb.
  pose proof Hb as Hb'. apply bytes_ok_cons in Hb'. destruct Hb' as [Hbb Hbr].
  apply nul_free_cons in Hn. destruct Hn as [Hb0 Hnr].
  destruct (Z.eqb_spec b 0); [contradiction|].
  cbn [forallb lookalike_free]. specialize (IH Hbr Hnr).
  destruct (needs_escape (b :: r)) eqn:Hesc.
  - split.
    + intros He. exfalso. apply (f_equal (@length Z)) in He.
      destruct (fmt_03o_digits b Hbb) as (d1 & d2 & d3 & Hf & _).
      rewrite Hf in He. cbn [app length] in He.
      pose proof (encode_loop_length_nul_free r Hnr). lia.
    + rewrite !andb_true_iff, negb_true_iff. intros [[Hp _] [Ht _]].
      cbn [needs_escape] in Hesc. unfold printable in Hp.
      rewrite Ht, Hp in Hesc. discriminate.
  - cbn [needs_escape] in Hesc. apply orb_false_iff in Hesc.
    destruct Hesc as [Ht Hp]. apply negb_false_iff in Hp.
    cbn [app]. unfold printable at 1. rewrite Ht, Hp. cbn [negb andb].
    split.
    + intros [= He]. now apply IH.
    + intros H. f_equal. now apply IH.
Qed.

Lemma encode_identity_iff_witness :
  encode_loop (bytes "hello \#12 world") = bytes "hello \#12 world".
Proof.
  apply (proj2 (encode_identity_iff (bytes "hello \#12 world") eq_refl eq_refl)).
  split; reflexivity.
Defined.

(** X4. [decode] leaves a text as it is exactly when no position of the
    text starts a backslash, a hash and three digits in '0' to '7'. *)
Theorem decode_identity_iff (s : list Z) :
  bytes_ok s = true ->
  nul_free s = true ->
  decode_loop s = s <-> token_free s = true.
Proof.
  induction s as [|x s IH]; intros Hb Hn; [cbn; tauto|].
  rewrite decode_loop_cons by now apply bytes_ok_take.
  apply bytes_ok_cons in Hb. destruct Hb as [_ Hbs].
  apply nul_free_cons in Hn. destruct Hn as [Hx Hns].
  destruct (Z.eqb_spec x 0); [contradiction|].
  cbn [token_free]. specialize (IH Hbs Hns).
  destruct (token_at strict_digit (x :: s)) eqn:Ht; cbn [negb andb].
  - split; [|discriminate].
    intros He. exfalso. apply (f_equal (@length Z)) in He.
    destruct s as [|y [|a [|b [|c s5]]]]; try discriminate.
    cbn [drop length] in He. rewrite drop_0 in He.
    pose proof (decode_loop_length_le s5). lia.
  - split.
    + intros [= He]. now apply IH.
    + intros H. f_equal. now apply IH.
Qed.

Lemma decode_identity_iff_witness :
  decode_loop (bytes "a\#189\#12z") = bytes "a\#189\#12z".
Proof.
  apply (proj2 (decode_identity_iff (bytes "a\#189\#12z") eq_refl eq_refl)).
  reflexivity.
Defined.

(** X5. [encode] is injective: two strings of bytes with the same
    encoding are the same string. *)
Theorem encode_injective (r1 r2 : list Z) :
  bytes_ok r1 = true ->
  bytes_ok r2 = true ->
  encode_loop r1 = encode_loop r2 ->
  cstr r1 = cstr r2.
Proof.
  intros H1 H2 He.
  rewrite <- (decode_encode_cstr r1 H1), <- (decode_encode_cstr r2 H2).
  now rewrite He.
Qed.

Lemma encode_injective_witness :
  cstr (bytes "\#101") = cstr (bytes "\#101").
Proof. apply encode_injective; reflexivity. Defined.

Lemma iseseq_not_backslash x s strict :
  0 <= x < 256 -> x <> 92 -> iseseq (x :: s) strict = false.
Proof.
  intros Hx Hne. unfold iseseq, at_. cbn [nth].
  rewrite char_eq by lia. destruct (Z.eqb_spec x 92); [contradiction|reflexivity].
Qed.

(** X6. Both transformations work byte by byte on a prefix without
    backslash: what is written for the prefix followed by any string is
    what is written for the prefix, followed by what is written for the
    string. *)
Theorem transcoder_splits_after_plain_prefix (p s : list Z) :
  bytes_ok p = true ->
  nul_free p = true ->
  forallb (fun b => negb (b =? 92)) p = true ->
  encode_loop (p ++ s) = encode_loop p ++ encode_loop s /\
  decode_loop (p ++ s) = decode_loop p ++ decode_loop s.
Proof.
  induction p as [|b p IH]; intros Hb Hn Hp; [split; reflexivity|].
  apply bytes_ok_cons in Hb. destruct Hb as [Hbb Hbp].
  apply nul_free_cons in Hn. destruct Hn as [Hb0 Hnp].
  cbn [forallb] in Hp. apply andb_true_iff in Hp. destruct Hp as [Hne Hp].
  apply negb_true_iff, Z.eqb_neq in Hne.
  destruct (IH Hbp Hnp Hp) as [IHe IHd].
  change ((b :: p) ++ s) with (b :: (p ++ s)). split.
  - cbn [encode_loop]. rewrite !iseseq_not_backslash by assumption.
    destruct (Z.eqb_spec b 0); [contradiction|]. rewrite IHe.
    now rewrite app_assoc.
  - rewrite !decode_loop_unfold. rewrite !iseseq_not_backslash by assumption.
    destruct (Z.eqb_spec b 0); [contradiction|]. now rewrite IHd.
Qed.

Lemma transcoder_splits_after_plain_prefix_witness :
  encode_loop (bytes "dir/" ++ bytes "\#123") =
    encode_loop (bytes "dir/") ++ encode_loop (bytes "\#123") /\
  decode_loop (bytes "dir/" ++ bytes "\#123") =
    decode_loop (bytes "dir/") ++ decode_loop (bytes "\#123").
Proof.
  apply transcoder_splits_after_plain_prefix; reflexivity.
Defined.

(** X7. Where [iseseq] in strict mode answers yes, [parseeseq] returns
    the number that the third to fifth byte denote in octal, a number
    from 0 to 511. *)
Theorem parseeseq_after_iseseq (s : list Z) :
  bytes_ok (take 5 s) = true ->
  iseseq s true = true ->
  parseeseq s = octal_value (nth 2 s 0) (nth 3 s 0) (nth 4 s 0) /\
  0 <= parseeseq s <= 511.
Proof.
  intros Hb Hseq. rewrite iseseq_token5 in Hseq by exact Hb.
  destruct s as [|x [|y [|a [|b [|c rest]]]]]; try discriminate.
  cbn [token_at] in Hseq. rewrite !andb_true_iff in Hseq.
  destruct Hseq as [[[[_ _] Ha] Hb'] Hc].
  unfold strict_digit in Ha, Hb', Hc.
  apply strict_digit_range in Ha, Hb', Hc.
  rewrite parseeseq_token by lia. cbn [nth].
  split; [reflexivity | unfold octal_value; lia].
Qed.

Lemma parseeseq_after_iseseq_witness :
  parseeseq (bytes "\#777x") = octal_value 55 55 55 /\
  0 <= parseeseq (bytes "\#777x") <= 511.
Proof.
  apply (parseeseq_after_iseseq (bytes "\#777x")); reflexivity.
Defined.

Lemma cstr_split s : s = cstr s \/ exists junk, s = cstr s ++ 0 :: junk.
Proof.
  induction s as [|b s IH]; [now left|].
  rewrite cstr_cons. destruct (Z.eqb_spec b 0) as [->|Hb].
  - right. now exists s.
  - destruct IH as [IH | [junk IH]].
    + left. now rewrite <- IH.
    + right. exists junk. cbn [app]. now rewrite <- IH.
Qed.

(** The loops on a buffer and on the string it holds. *)
Lemma loops_on_cstr (s : list Z) (strict : bool) :
  iseseq s strict = iseseq (cstr s) strict /\
  encode_loop s = encode_loop (cstr s) /\
  decode_loop s = decode_loop (cstr s).
Proof.
  destruct (cstr_split s) as [H | [junk H]].
  - now rewrite <- H.
  - rewrite H at 1 3 5.
    now rewrite iseseq_app_nul, encode_loop_app_nul, decode_loop_app_nul.
Qed.

(** X8. The three functions of the transcoder read a C string: what lies
    behind the first NUL of their argument has no part in what they
    answer or write. *)
Theorem transcoder_reads_c_string (s : list Z) (strict : bool) :
  iseseq s strict = iseseq (cstr s) strict /\
  encode_loop s = encode_loop (cstr s) /\
  decode_loop s = decode_loop (cstr s).
Proof. apply loops_on_cstr. Qed.

(** X23. What [iseseq] takes for an escape sequence in strict mode it
    takes for one in lenient mode too: every text that [decode] would
    read as a token is a text whose backslash [encode] escapes. *)
Theorem strict_iseseq_is_lenient (s : list Z) :
  iseseq s true = true -> iseseq s false = true.
Proof.
  unfold iseseq.
  destruct (negb (at_ s 0 =? 92)); [discriminate|].
  destruct (strlen s <? 5)%nat; [discriminate|].
  destruct (negb (at_ s 1 =? 35)); [discriminate|].
  cbv zeta. rewrite !andb_true_iff. unfold isodigit, isdigit.
  rewrite !strict_digit_range, !lenient_digit_range. lia.
Qed.

Lemma strict_iseseq_is_lenient_witness :
  iseseq (bytes "\#017 and more") false = true.
Proof. apply strict_iseseq_is_lenient. reflexivity. Defined.

(** ** Operands *)

Lemma encdec_record st0 st r :
  s_decode st = s_decode st0 ->
  encdec_of st0 r st = Ret tt (with_out (out st ++ emit st r) st).
Proof.
  intros Hd. unfold encdec_of, emit. rewrite Hd. destruct (s_decode st0).
  - apply decode_state.
  - apply encode_state.
Qed.

Lemma args_loop_emit st0 argv :
  forall st,
    s_decode st = s_decode st0 ->
    args_loop (encdec_of st0) argv st =
      Ret tt (with_out (out st ++ concat (map (emit st) argv)) st).
Proof.
  induction argv as [|s argv IH]; intros st Hd.
  - cbn. rewrite app_nil_r. now destruct st.
  - cbn [args_loop]. unfold bind. rewrite encdec_record by exact Hd.
    rewrite IH by exact Hd. cbn [map concat out with_out].
    now rewrite <- app_assoc.
Qed.

Lemma process_args_returns E opts operands st argv st' :
  process_args E opts operands st = Ret argv st' ->
  argv = operands /\ out st' = out st /\
  exists st1, getopt_loop E opts st = Ret tt st1.
Proof.
  intros H.
  destruct (getopt_loop E opts st) as [[] st1|c st1|st1] eqn:Hloop.
  - rewrite (process_args_after_getopt E opts operands _ _ Hloop) in H.
    apply getopt_loop_ret in Hloop. destruct Hloop as (Ho & _).
    destruct (negb (length operands =? 0)%nat && is_some (s_inpstr st1));
      [discriminate|].
    cbv zeta in H.
    destruct ((length operands =? 0)%nat && negb (is_some (s_inpstr st1)));
      match type of H with
      | (if ?c then _ else _) = _ => destruct c
      end; injection H as <- <-; cbn; eauto.
  - rewrite (process_args_exit E opts operands _ _ _ Hloop) in H. discriminate.
  - exfalso. eapply getopt_loop_defined, Hloop.
Qed.

Lemma main_stops E opts operands st0 :
  (forall c st, process_args E opts operands st0 = Exit c st ->
                main E opts operands st0 = Exit c st) /\
  (forall st, process_args E opts operands st0 = Undefined st ->
              main E opts operands st0 = Undefined st).
Proof.
  split; intros; unfold main, init; unfold bind at 1; now rewrite H.
Qed.

Lemma main_operands E opts operands st0 argv st :
  process_args E opts operands st0 = Ret argv st ->
  argv <> [] ->
  main E opts operands st0 =
    Ret EXIT_SUCCESS (with_out (out st ++ concat (map (emit st) argv)) st).
Proof.
  intros Hargs Hne. unfold main, init. unfold bind at 1. rewrite Hargs.
  unfold bind at 1, gets at 1.
  destruct argv as [|s argv]; [contradiction|].
  cbn [length Nat.eqb negb]. fold (encdec_of st).
  unfold bind. now rewrite args_loop_emit.
Qed.

(** X9. With operands, each operand is one record: when the options are
    accepted, the program writes the transformation of each operand in
    order, each with its terminator, leaves the input stream closed to
    itself, and returns success. *)
Theorem operands_are_records (E : env) (opts : list optchar)
    (operands argv : list (list Z)) (st : state) :
  process_args E opts operands initial = Ret argv st ->
  operands <> [] ->
  run E opts operands =
    Ret EXIT_SUCCESS (with_out (concat (map (emit st) operands)) st) /\
  s_inpstr st = None.
Proof.
  intros Hargs Hops. pose proof Hargs as Hret.
  apply process_args_returns in Hret. destruct Hret as (-> & Ho & st1 & Hloop).
  cbn [initial out] in Ho. split.
  - unfold run. rewrite (main_operands E opts operands _ _ _ Hargs Hops).
    now rewrite Ho.
  - rewrite (process_args_after_getopt E opts operands _ _ Hloop) in Hargs.
    destruct operands as [|s operands]; [contradiction|].
    cbn [length Nat.eqb negb andb] in Hargs.
    destruct (s_inpstr st1) eqn:Hi; cbn [is_some] in Hargs; [discriminate|].
    cbv zeta in Hargs.
    match type of Hargs with
    | (if ?c then _ else _) = _ => destruct c
    end; injection Hargs as <-; exact Hi.
Qed.

Lemma operands_are_records_witness :
  let st := with_nulterm true (with_decode true initial) in
  run (example_env (bytes "unread")) [opt_d; opt_0] [bytes "a\#101"; bytes "b"] =
    Ret EXIT_SUCCESS
      (with_out (concat (map (emit st) [bytes "a\#101"; bytes "b"])) st) /\
  s_inpstr st = None.
Proof.
  apply (operands_are_records (example_env (bytes "unread")) [opt_d; opt_0]
           [bytes "a\#101"; bytes "b"] [bytes "a\#101"; bytes "b"]);
    [reflexivity | discriminate].
Defined.

Section TwoWorlds.

Variables E E' : env.
Hypothesis same_a0 : a0 E = a0 E'.
Hypothesis same_name : PACKAGE_NAME E = PACKAGE_NAME E'.
Hypothesis same_version : PACKAGE_VERSION E = PACKAGE_VERSION E'.
Hypothesis same_files :
  forall path, is_some (e_files E path) = is_some (e_files E' path).

Lemma usage_text_same : usage_text E = usage_text E'.
Proof. unfold usage_text. now rewrite same_a0, same_version. Qed.

Lemma process_opt_same ch st : process_opt E ch st = process_opt E' ch st.
Proof.
  destruct ch; cbn [process_opt]; unfold usage;
    rewrite ?usage_text_same, ?same_name, ?same_version; try reflexivity.
  unfold bind. destruct (optarg =? "-")%string; [reflexivity|].
  pose proof (same_files optarg) as Hf.
  destruct (e_files E optarg), (e_files E' optarg); try discriminate; reflexivity.
Qed.

Lemma getopt_loop_same opts : forall st, getopt_loop E opts st = getopt_loop E' opts st.
Proof.
  induction opts as [|ch opts IH]; intros st; [reflexivity|].
  rewrite !getopt_loop_cons, process_opt_same.
  destruct (process_opt E' ch st); auto.
Qed.

Lemma process_args_same opts operands st :
  process_args E opts operands st = process_args E' opts operands st.
Proof.
  unfold process_args. unfold bind at 1 7. now rewrite getopt_loop_same.
Qed.

End TwoWorlds.

(** X10. With operands, neither the input stream nor the heap has a
    part in the run: two worlds that agree on the name of the program,
    on the package strings and on which files can be opened give the
    same run, whatever standard input and the files hold and whatever
    memory there is. *)
Theorem operands_ignore_the_stream (E E' : env) (opts : list optchar)
    (operands : list (list Z)) :
  a0 E = a0 E' ->
  PACKAGE_NAME E = PACKAGE_NAME E' ->
  PACKAGE_VERSION E = PACKAGE_VERSION E' ->
  (forall path, is_some (e_files E path) = is_some (e_files E' path)) ->
  operands <> [] ->
  run E opts operands = run E' opts operands.
Proof.
  intros Ha Hn Hv Hf Hops. unfold run.
  pose proof (process_args_same E E' Ha Hn Hv Hf opts operands initial) as Hsame.
  destruct (process_args E' opts operands initial) as [argv st|c st|st] eqn:Hargs.
  - pose proof Hargs as Hret. apply process_args_returns in Hret.
    destruct Hret as (-> & _).
    now rewrite (main_operands E _ _ _ _ _ Hsame Hops),
      (main_operands E' _ _ _ _ _ Hargs Hops).
  - now rewrite (proj1 (main_stops E _ _ _) _ _ Hsame),
      (proj1 (main_stops E' _ _ _) _ _ Hargs).
  - now rewrite (proj2 (main_stops E _ _ _) _ Hsame),
      (proj2 (main_stops E' _ _ _) _ Hargs).
Qed.

Lemma operands_ignore_the_stream_witness :
  run (example_env (bytes "one")) [opt_d] [bytes "x\#101"] =
  run (example_env (bytes "another")) [opt_d] [bytes "x\#101"].
Proof.
  apply operands_ignore_the_stream;
    [reflexivity | reflexivity | reflexivity | | discriminate].
  intros path. simpl. destruct (path =? "somefile")%string; reflexivity.
Defined.

(** ** Options that end the run, and options that configure it *)

Section Stopping.

Variable E : env.

Lemma getopt_loop_app o1 o2 :
  forall st,
    getopt_loop E (o1 ++ o2) st =
    match getopt_loop E o1 st with
    | Ret _ st1 => getopt_loop E o2 st1
    | Exit c st1 => Exit c st1
    | Undefined st1 => Undefined st1
    end.
Proof.
  induction o1 as [|ch o1 IH]; intros st; [reflexivity|].
  cbn [app]. rewrite !getopt_loop_cons.
  destruct (process_opt E ch st) as [[] st1| |]; auto.
Qed.

(** Benign options are gone through without a word. *)
Lemma getopt_loop_benign pre :
  forallb (benign E) pre = true ->
  forall st,
    exists st1,
      getopt_loop E pre st = Ret tt st1 /\ out st1 = out st /\ errs st1 = errs st.
Proof.
  induction pre as [|ch pre IH]; intros Hpre st; [now exists st|].
  cbn [forallb] in Hpre. apply andb_true_iff in Hpre. destruct Hpre as [Hch Hpre].
  rewrite getopt_loop_cons.
  destruct (process_opt E ch st) as [[] st1|c st1|st1] eqn:Hopt.
  - apply process_opt_ret in Hopt. destruct Hopt as (Ho & He & _).
    destruct (IH Hpre st1) as (st2 & Hloop & Ho2 & He2).
    exists st2. rewrite Hloop, Ho2, He2, Ho, He. auto.
  - exfalso. revert Hopt. destruct ch; run_opt; try discriminate.
    cbn [benign] in Hch. destruct (optarg =? "-")%string; cbn in *; [discriminate|].
    destruct (e_files E optarg); cbn in *; discriminate.
  - exfalso. eapply process_opt_defined, Hopt.
Qed.

(** The run when the first option that is not benign is [ch] and [ch]
    ends the process. *)
Lemma run_stops_at pre ch post operands c st0 :
  forallb (benign E) pre = true ->
  (forall st, process_opt E ch st = Exit c (st0 st)) ->
  exists st1,
    out st1 = [] /\ errs st1 = [] /\
    run E (pre ++ ch :: post) operands = Exit c (st0 st1).
Proof.
  intros Hpre Hch.
  destruct (getopt_loop_benign pre Hpre initial) as (st1 & Hloop & Ho & He).
  exists st1. split; [exact Ho|]. split; [exact He|].
  unfold run. apply (proj1 (main_stops E _ _ _)).
  apply process_args_exit.
  rewrite getopt_loop_app, Hloop, getopt_loop_cons. now rewrite Hch.
Qed.

End Stopping.

(** X11. [-h] and [-V] end the run with success before anything is
    read or transformed: when only options that are accepted stand
    before it, [-h] writes the usage text to [stdout], [-V] writes the
    package name, " v", the version and a newline, and [stderr] is
    empty, whatever follows on the command line. *)
Theorem help_and_version (E : env) (pre post : list optchar)
    (operands : list (list Z)) :
  forallb (benign E) pre = true ->
  (exists st,
     run E (pre ++ opt_h :: post) operands = Exit EXIT_SUCCESS st /\
     out st = bytes (usage_text E) /\ errs st = []) /\
  (exists st,
     run E (pre ++ opt_V :: post) operands = Exit EXIT_SUCCESS st /\
     out st = bytes (PACKAGE_NAME E ++ " v" ++ PACKAGE_VERSION E) ++ [10] /\
     errs st = []).
Proof.
  intros Hpre. split.
  - destruct (run_stops_at E pre opt_h post operands EXIT_SUCCESS
                (fun st => with_out (out st ++ bytes (usage_text E)) st) Hpre)
      as (st1 & Ho & He & Hrun); [reflexivity|].
    eexists. split; [exact Hrun|]. cbn [out errs with_out]. now rewrite Ho, He.
  - destruct (run_stops_at E pre opt_V post operands EXIT_SUCCESS
                (fun st => with_out
                             (out st ++ bytes (PACKAGE_NAME E ++ " v"
                                               ++ PACKAGE_VERSION E) ++ [10]) st)
                Hpre)
      as (st1 & Ho & He & Hrun); [reflexivity|].
    eexists. split; [exact Hrun|]. cbn [out errs with_out]. now rewrite Ho, He.
Qed.

Lemma help_and_version_witness :
  (exists st,
     run (example_env []) ([opt_d; opt_f "somefile"] ++ opt_h :: [opt_unknown])
         [bytes "x"] = Exit EXIT_SUCCESS st /\
     out st = bytes (usage_text (example_env [])) /\ errs st = []) /\
  (exists st,
     run (example_env []) ([opt_d; opt_f "somefile"] ++ opt_V :: [opt_unknown])
         [bytes "x"] = Exit EXIT_SUCCESS st /\
     out st = bytes "rscode v0.1" ++ [10] /\ errs st = []).
Proof.
  apply (help_and_version (example_env []) [opt_d; opt_f "somefile"]
           [opt_unknown] [bytes "x"]).
  reflexivity.
Defined.

(** X12. An option that [getopt] does not know ends the run with the
    status of failure, the usage text on [stderr] and nothing on
    [stdout], when only options that are accepted stand before it. *)
Theorem unknown_option_is_fatal (E : env) (pre post : list optchar)
    (operands : list (list Z)) :
  forallb (benign E) pre = true ->
  exists st,
    run E (pre ++ opt_unknown :: post) operands = Exit EXIT_FAILURE st /\
    out st = [] /\ errs st = [usage_text E].
Proof.
  intros Hpre.
  destruct (run_stops_at E pre opt_unknown post operands EXIT_FAILURE
              (fun st => with_errs (errs st ++ [usage_text E]) st) Hpre)
    as (st1 & Ho & He & Hrun); [reflexivity|].
  eexists. split; [exact Hrun|]. cbn [out errs with_errs]. now rewrite Ho, He.
Qed.

Lemma unknown_option_is_fatal_witness :
  exists st,
    run (example_env (bytes "a")) ([opt_0] ++ opt_unknown :: [opt_h]) [] =
      Exit EXIT_FAILURE st /\
    out st = [] /\ errs st = [usage_text (example_env (bytes "a"))].
Proof.
  apply (unknown_option_is_fatal (example_env (bytes "a")) [opt_0] [opt_h] []).
  reflexivity.
Defined.

(** X13. A [-f] whose file cannot be opened ends the run with the
    status of failure, the diagnostic "fopen" with the name of the file
    on [stderr] and nothing on [stdout], when only options that are
    accepted stand before it. *)
Theorem fopen_failure_is_fatal (E : env) (pre post : list optchar)
    (path : string) (operands : list (list Z)) :
  forallb (benign E) pre = true ->
  (path =? "-")%string = false ->
  e_files E path = None ->
  exists st,
    run E (pre ++ opt_f path :: post) operands = Exit EXIT_FAILURE st /\
    out st = [] /\ errs st = [("fopen " ++ path)%string].
Proof.
  intros Hpre Hdash Hfile.
  destruct (run_stops_at E pre (opt_f path) post operands EXIT_FAILURE
              (fun st => with_errs (errs st ++ [("fopen " ++ path)%string]) st)
              Hpre)
    as (st1 & Ho & He & Hrun).
  - intros st. run_opt. rewrite Hdash, Hfile. reflexivity.
  - eexists. split; [exact Hrun|]. cbn [out errs with_errs]. now rewrite Ho, He.
Qed.

Lemma fopen_failure_is_fatal_witness :
  exists st,
    run (example_env []) ([opt_d] ++ opt_f "nofile" :: [opt_h]) [] =
      Exit EXIT_FAILURE st /\
    out st = [] /\ errs st = ["fopen nofile"%string].
Proof.
  apply (fopen_failure_is_fatal (example_env []) [opt_d] [opt_h] "nofile" []);
    reflexivity.
Defined.

Section Configuration.

Variable E : env.

Lemma getopt_loop_mode opts :
  forall st st1,
    getopt_loop E opts st = Ret tt st1 ->
    s_decode st1 =
      fold_left (fun m o => match o with
                            | opt_e => false
                            | opt_d => true
                            | _ => m
                            end) opts (s_decode st).
Proof.
  induction opts as [|ch opts IH]; intros st st1 H.
  - now injection H as <-.
  - rewrite getopt_loop_cons in H.
    destruct (process_opt E ch st) as [[] st2| |] eqn:Hopt; try discriminate.
    rewrite (IH _ _ H). cbn [fold_left]. f_equal.
    revert Hopt. destruct ch; run_opt; try discriminate;
      try (now intros [= <-]).
    destruct (optarg =? "-")%string; cbn; [now intros [= <-]|].
    destruct (e_files E optarg); cbn; [now intros [= <-] | discriminate].
Qed.

Lemma getopt_loop_stream opts :
  forall st st1,
    getopt_loop E opts st = Ret tt st1 ->
    s_inpstr st1 =
      fold_left (fun h o => match o with
                            | opt_f optarg =>
                                Some (if (optarg =? "-")%string then stdin
                                      else opened optarg)
                            | _ => h
                            end) opts (s_inpstr st).
Proof.
  induction opts as [|ch opts IH]; intros st st1 H.
  - now injection H as <-.
  - rewrite getopt_loop_cons in H.
    destruct (process_opt E ch st) as [[] st2| |] eqn:Hopt; try discriminate.
    rewrite (IH _ _ H). cbn [fold_left]. f_equal.
    revert Hopt. destruct ch; run_opt; try discriminate;
      try (now intros [= <-]).
    destruct (optarg =? "-")%string; cbn; [now intros [= <-]|].
    destruct (e_files E optarg); cbn; [now intros [= <-] | discriminate].
Qed.

Lemma stream_of_fold opts :
  forall acc,
    match fold_left (fun h o => match o with
                                | opt_f optarg =>
                                    Some (if (optarg =? "-")%string then stdin
                                          else opened optarg)
                                | _ => h
                                end) opts acc with
    | Some h => h
    | None => stdin
    end =
    fold_left (fun h o => match o with
                          | opt_f optarg =>
                              if (optarg =? "-")%string then stdin
                              else opened optarg
                          | _ => h
                          end) opts (match acc with Some h => h | None => stdin end).
Proof.
  induction opts as [|ch opts IH]; intros acc; [reflexivity|].
  cbn [fold_left]. rewrite IH. destruct ch; reflexivity.
Qed.

End Configuration.

(** X14. The mode is what the last of [-e] and [-d] says, and encode
    when there is neither: that is the value of [s_decode] whenever the
    options are accepted. *)
Theorem last_mode_option_wins (E : env) (opts : list optchar)
    (operands argv : list (list Z)) (st : state) :
  process_args E opts operands initial = Ret argv st ->
  s_decode st = mode_of opts.
Proof.
  intros Hargs. pose proof Hargs as Hret.
  apply process_args_returns in Hret. destruct Hret as (_ & _ & st1 & Hloop).
  rewrite (process_args_after_getopt E opts operands _ _ Hloop) in Hargs.
  apply getopt_loop_mode in Hloop. cbn [initial s_decode] in Hloop.
  fold (mode_of opts) in Hloop. rewrite <- Hloop.
  destruct (negb (length operands =? 0)%nat && is_some (s_inpstr st1));
    [discriminate|].
  cbv zeta in Hargs.
  destruct ((length operands =? 0)%nat && negb (is_some (s_inpstr st1)));
    match type of Hargs with
    | (if ?c then _ else _) = _ => destruct c
    end; now injection Hargs as _ <-.
Qed.

Lemma last_mode_option_wins_witness :
  s_decode (with_inpstr (Some stdin) initial) = mode_of [opt_d; opt_e].
Proof.
  apply (last_mode_option_wins (example_env []) [opt_d; opt_e] [] []).
  reflexivity.
Defined.

(** X15. Without operands the stream that is read is the one the last
    [-f] names, a dash standing for standard input, and standard input
    when there is no [-f]. *)
Theorem last_f_option_wins (E : env) (opts : list optchar)
    (argv : list (list Z)) (st : state) :
  process_args E opts [] initial = Ret argv st ->
  s_inpstr st = Some (stream_of opts).
Proof.
  intros Hargs. pose proof Hargs as Hret.
  apply process_args_returns in Hret. destruct Hret as (_ & _ & st1 & Hloop).
  rewrite (process_args_after_getopt E opts [] _ _ Hloop) in Hargs.
  apply getopt_loop_stream in Hloop. cbn [initial s_inpstr] in Hloop.
  pose proof (stream_of_fold opts None) as Hs. rewrite <- Hloop in Hs.
  fold (stream_of opts) in Hs.
  cbn [length Nat.eqb negb andb] in Hargs. cbv zeta in Hargs.
  destruct (s_inpstr st1) as [h|] eqn:Hi; cbn [is_some negb] in Hargs;
    injection Hargs as _ <-; cbn [s_inpstr with_inpstr]; congruence.
Qed.

Lemma last_f_option_wins_witness :
  s_inpstr (with_nulterm true (with_inpstr (Some stdin) initial)) =
    Some (stream_of [opt_f "somefile"; opt_f "-"]).
Proof.
  apply (last_f_option_wins (example_env []) [opt_f "somefile"; opt_f "-"] []).
  reflexivity.
Defined.

(** ** The stream, end to end *)

(** [main] without operands, up to the read loop. *)
Lemma main_reads E opts st h :
  process_args E opts [] initial = Ret [] st ->
  s_inpstr st = Some h ->
  e_alloc E 1024 = true ->
  main E opts [] initial =
    match read_loop E (encdec_of st) (s_data (contents E h))
            (first_block (e_fresh E)) st with
    | Ret B st1 =>
        if s_ferror (contents E h)
        then Exit EXIT_FAILURE (with_errs (errs st1 ++ ["fgetc"%string]) st1)
        else if negb (bufpos B =? 0)%nat
             then
               let st2 := with_errs (errs st1 ++ [terminator_missing]) st1 in
               if (bufpos B <? bufsz B)%nat
               then
                 match encdec_of st (<[bufpos B := 0]> (buf B)) st2 with
                 | Ret _ st3 => Ret EXIT_SUCCESS st3
                 | Exit c st3 => Exit c st3
                 | Undefined st3 => Undefined st3
                 end
               else Undefined st2
             else Ret EXIT_SUCCESS st1
    | Exit c st1 => Exit c st1
    | Undefined st1 => Undefined st1
    end.
Proof.
  intros Hargs Hinp Halloc.
  unfold main, init. unfold bind at 1. rewrite Hargs.
  unfold bind at 1, gets at 1. cbn [length Nat.eqb negb].
  unfold bind at 1. unfold malloc. rewrite Halloc. cbn [ret].
  fold (first_block (e_fresh E)).
  unfold bind at 1, gets at 1. rewrite Hinp. fold (encdec_of st).
  unfold bind at 1.
  destruct (read_loop E (encdec_of st) (s_data (contents E h))
              (first_block (e_fresh E)) st) as [B st1|c st1|st1]; try reflexivity.
  destruct (s_ferror (contents E h)); [reflexivity|].
  unfold bind, ret.
  destruct (negb (bufpos B =? 0)%nat); [|reflexivity].
  unfold warnx, modify, store, undefined, ret.
  destruct (bufpos B <? bufsz B)%nat; [|reflexivity].
  cbn [buf]. cbv zeta. unfold terminator_missing.
  destruct (encdec_of st _ _); reflexivity.
Qed.

(** X16. A read error ends the run with the status of failure and the
    diagnostic "fgetc": the records that were complete before the error
    have been written, and what was read of a further record is
    dropped, without the warning about a missing terminator. *)
Theorem read_error_is_fatal (E : env) (opts : list optchar) (st : state)
    (h : FILEp) (rs : list (list Z)) (tail : list Z) :
  (forall n, e_alloc E n = true) ->
  process_args E opts [] initial = Ret [] st ->
  s_inpstr st = Some h ->
  contents E h = {| s_data := join (in_terminator st) rs ++ tail;
                    s_ferror := true |} ->
  free_of (in_terminator st) rs = true ->
  forallb (fun b => negb (b =? in_terminator st)) tail = true ->
  run E opts [] =
    Exit EXIT_FAILURE
      (with_errs (errs st ++ ["fgetc"%string])
         (with_out (out st ++ concat (map (emit st) rs)) st)).
Proof.
  intros Halloc Hargs Hinp Hc Hrs Htail.
  unfold run. rewrite (main_reads E opts st h Hargs Hinp (Halloc _)).
  rewrite Hc. cbn [s_data s_ferror].
  rewrite (read_loop_records E Halloc st rs tail _ st (first_block_wf E)
             eq_refl eq_refl Hrs).
  rewrite <- (app_nil_r tail) at 1.
  rewrite (read_loop_record E Halloc (encdec_of st) tail [] _
             (with_out (out st ++ concat (map (emit st) rs)) st)
             (after_records_wf E rs _ (first_block_wf E)) Htail).
  reflexivity.
Qed.

Lemma read_error_is_fatal_witness :
  let E := {| a0 := "rscode"; PACKAGE_NAME := "rscode"; PACKAGE_VERSION := "0.1";
              e_stdin := {| s_data := join 10 [bytes "a"; bytes "b"] ++ bytes "cd";
                            s_ferror := true |};
              e_files := fun _ => None; e_alloc := fun _ => true;
              e_fresh := 0 |} in
  let st := with_inpstr (Some stdin) initial in
  run E [] [] =
    Exit EXIT_FAILURE
      (with_errs (errs st ++ ["fgetc"%string])
         (with_out (out st ++ concat (map (emit st) [bytes "a"; bytes "b"])) st)).
Proof.
  apply (read_error_is_fatal _ [] _ stdin [bytes "a"; bytes "b"] (bytes "cd"));
    reflexivity.
Defined.

(** X17. Without operands, when the first block of 1024 bytes is
    refused, the run ends with the status of failure and the diagnostic
    "malloc"; nothing is read and nothing is written. *)
Theorem malloc_failure_is_fatal (E : env) (opts : list optchar) (st : state) :
  process_args E opts [] initial = Ret [] st ->
  e_alloc E 1024 = false ->
  run E opts [] =
    Exit EXIT_FAILURE (with_errs ["malloc"%string] st) /\
  out st = [] /\ errs st = [].
Proof.
  intros Hargs Halloc.
  pose proof (process_args_flags E opts [] [] st Hargs) as [_ He].
  cbn [length Nat.eqb negb andb] in He. rewrite andb_false_r in He.
  pose proof (process_args_returns E opts [] initial [] st Hargs) as (_ & Ho & _).
  cbn [initial out] in Ho.
  split; [|split; assumption].
  unfold run, main, init. unfold bind at 1. rewrite Hargs.
  unfold bind at 1, gets at 1. cbn [length Nat.eqb negb].
  unfold bind at 1. unfold malloc. rewrite Halloc.
  unfold err, bind, warnx, modify, exit. now rewrite He.
Qed.

Lemma malloc_failure_is_fatal_witness :
  let E := {| a0 := "rscode"; PACKAGE_NAME := "rscode"; PACKAGE_VERSION := "0.1";
              e_stdin := {| s_data := bytes "abc"; s_ferror := false |};
              e_files := fun _ => None; e_alloc := fun _ => false;
              e_fresh := 0 |} in
  let st := with_inpstr (Some stdin) (with_decode true initial) in
  run E [opt_d] [] = Exit EXIT_FAILURE (with_errs ["malloc"%string] st) /\
  out st = [] /\ errs st = [].
Proof.
  apply (malloc_failure_is_fatal _ [opt_d]); reflexivity.
Defined.

(** *** Inside the first block

    The lemmas of this section ask nothing of the allocator: they follow
    the loop while the buffer has room. *)

Section Room.

Variable E : env.

Lemma grow_room_id B :
  (bufpos B < bufsz B)%nat -> grow (e_fresh E) B = B.
Proof.
  intros H. unfold grow. destruct (Nat.leb_spec (bufsz B) (bufpos B)); [lia|reflexivity].
Qed.

Lemma no_realloc B st :
  (bufpos B < bufsz B)%nat ->
  (if (bufsz B <=? bufpos B)%nat then realloc_twice E B else ret B) st =
  Ret (grow (e_fresh E) B) st.
Proof.
  intros H. rewrite grow_room_id by exact H.
  destruct (Nat.leb_spec (bufsz B) (bufpos B)); [lia|reflexivity].
Qed.

Lemma read_loop_push_room encdec c input B st :
  (bufpos B < bufsz B)%nat -> c <> in_terminator st ->
  read_loop E encdec (c :: input) B st =
  read_loop E encdec input (push (e_fresh E) c B) st.
Proof.
  intros HB Hc. cbn [read_loop]. unfold bind at 1. rewrite no_realloc by exact HB.
  unfold bind, gets. fold (in_terminator st).
  destruct (Z.eqb_spec c (in_terminator st)); [contradiction|].
  unfold store. rewrite grow_room_id by exact HB.
  destruct (Nat.ltb_spec (bufpos B) (bufsz B)); [|lia].
  unfold push. now rewrite grow_room_id.
Qed.

Lemma read_loop_cut_room st0 input B st :
  wf_buffer B -> (bufpos B < bufsz B)%nat -> s_decode st = s_decode st0 ->
  read_loop E (encdec_of st0) (in_terminator st :: input) B st =
  read_loop E (encdec_of st0) input (cut (e_fresh E) B)
    (with_out (out st ++ emit st (live B)) st).
Proof.
  intros Hwf HB Hd. cbn [read_loop]. unfold bind at 1.
  rewrite no_realloc by exact HB.
  unfold bind at 1 2, gets. fold (in_terminator st).
  rewrite Z.eqb_refl.
  unfold store. pose proof (grow_room E B Hwf) as Hroom.
  destruct (Nat.ltb_spec (bufpos (grow (e_fresh E) B)) (bufsz (grow (e_fresh E) B)));
    [|lia].
  unfold bind at 1, ret.
  destruct (cut_buf E B Hwf) as [junk Hj].
  unfold bind at 1. change (buf _) with (buf (cut (e_fresh E) B)) at 1.
  rewrite Hj, encdec_buffer by exact Hd.
  reflexivity.
Qed.

Lemma push_bufsz_room c B :
  (bufpos B < bufsz B)%nat -> bufsz (push (e_fresh E) c B) = bufsz B.
Proof. intros H. unfold push. now rewrite grow_room_id. Qed.

Lemma cut_bufsz_room B :
  (bufpos B < bufsz B)%nat -> bufsz (cut (e_fresh E) B) = bufsz B.
Proof. intros H. unfold cut. now rewrite grow_room_id. Qed.

Lemma read_loop_record_room encdec r :
  forall input B st,
    wf_buffer B ->
    (bufpos B + length r <= bufsz B)%nat ->
    forallb (fun b => negb (b =? in_terminator st)) r = true ->
    read_loop E encdec (r ++ input) B st =
    read_loop E encdec input (push_all (e_fresh E) r B) st /\
    bufsz (push_all (e_fresh E) r B) = bufsz B.
Proof.
  induction r as [|c r IH]; intros input B st HB Hlen Hr; [split; reflexivity|].
  cbn [forallb] in Hr. apply andb_true_iff in Hr. destruct Hr as [Hc Hr].
  apply negb_true_iff, Z.eqb_neq in Hc. cbn [length] in Hlen.
  cbn [app]. rewrite read_loop_push_room by (assumption || lia).
  rewrite push_all_cons.
  destruct (IH input (push (e_fresh E) c B) st) as [Hrun Hsz].
  - now apply push_wf.
  - rewrite push_bufpos, push_bufsz_room by lia. lia.
  - exact Hr.
  - rewrite Hrun, Hsz. split; [reflexivity|]. apply push_bufsz_room. lia.
Qed.

Lemma read_loop_records_room st0 rs :
  forall input B st,
    wf_buffer B -> bufpos B = O -> s_decode st = s_decode st0 ->
    free_of (in_terminator st) rs = true ->
    forallb (fun r => (length r <? bufsz B)%nat) rs = true ->
    read_loop E (encdec_of st0) (join (in_terminator st) rs ++ input) B st =
    read_loop E (encdec_of st0) input (after_records (e_fresh E) rs B)
      (with_out (out st ++ concat (map (emit st) rs)) st) /\
    bufsz (after_records (e_fresh E) rs B) = bufsz B.
Proof.
  induction rs as [|r rs IH]; intros input B st HB Hpos Hd Hrs Hshort.
  - cbn [join map concat app after_records fold_left]. rewrite app_nil_r.
    split; [now destruct st | reflexivity].
  - cbn [free_of forallb] in Hrs, Hshort. apply andb_true_iff in Hrs, Hshort.
    destruct Hrs as [Hr Hrs]. destruct Hshort as [Hlen Hshort].
    apply Nat.ltb_lt in Hlen.
    unfold join. cbn [map concat]. rewrite <- !app_assoc. cbn [app].
    fold (join (in_terminator st) rs).
    destruct (read_loop_record_room (encdec_of st0) r
                (in_terminator st :: join (in_terminator st) rs ++ input)
                B st HB ltac:(lia) Hr) as [Hrun Hsz].
    rewrite Hrun.
    rewrite read_loop_cut_room;
      [| now apply push_all_wf | rewrite push_all_bufpos, Hsz; lia | exact Hd].
    rewrite push_all_live by exact HB.
    assert (live B = []) as -> by (unfold live; rewrite Hpos; apply take_0).
    cbn [app].
    set (st1 := with_out (out st ++ emit st r) st).
    change (in_terminator st) with (in_terminator st1).
    assert (bufsz (cut (e_fresh E) (push_all (e_fresh E) r B)) = bufsz B) as Hsz'
      by (rewrite cut_bufsz_room; [exact Hsz | rewrite push_all_bufpos, Hsz; lia]).
    destruct (IH input (cut (e_fresh E) (push_all (e_fresh E) r B)) st1) as [Hrun' Hsz''].
    + apply cut_wf, push_all_wf, HB.
    + reflexivity.
    + exact Hd.
    + exact Hrs.
    + now rewrite Hsz'.
    + rewrite Hrun'. rewrite after_records_cons. split; [|now rewrite Hsz'', Hsz'].
      f_equal. subst st1. cbn [out with_out map concat]. now rewrite <- app_assoc.
Qed.

End Room.

(** X18. A stream whose records are all shorter than 1024 bytes is
    processed in the block that [main] allocates first: once that block
    is granted the run does not depend on the allocator any more, each
    record is written in turn and the program returns success. *)
Theorem first_block_is_enough (E : env) (opts : list optchar) (st : state)
    (h : FILEp) (rs : list (list Z)) :
  e_alloc E 1024 = true ->
  process_args E opts [] initial = Ret [] st ->
  s_inpstr st = Some h ->
  contents E h = {| s_data := join (in_terminator st) rs; s_ferror := false |} ->
  free_of (in_terminator st) rs = true ->
  forallb (fun r => (length r <? 1024)%nat) rs = true ->
  run E opts [] =
    Ret EXIT_SUCCESS (with_out (out st ++ concat (map (emit st) rs)) st).
Proof.
  intros Halloc Hargs Hinp Hc Hrs Hshort.
  unfold run. rewrite (main_reads E opts st h Hargs Hinp Halloc).
  rewrite Hc. cbn [s_data s_ferror].
  rewrite <- (app_nil_r (join _ rs)).
  destruct (read_loop_records_room E st rs [] (first_block (e_fresh E)) st
              (first_block_wf E) eq_refl eq_refl Hrs Hshort) as [Hrun _].
  rewrite Hrun. cbn [read_loop ret].
  now rewrite after_records_bufpos.
Qed.

Lemma first_block_is_enough_witness :
  let E := {| a0 := "rscode"; PACKAGE_NAME := "rscode"; PACKAGE_VERSION := "0.1";
              e_stdin := {| s_data := join 10 [bytes "a"; [1; 2]]; s_ferror := false |};
              e_files := fun _ => None;
              e_alloc := fun n => (n =? 1024)%nat;
              e_fresh := 0 |} in
  let st := with_inpstr (Some stdin) initial in
  run E [] [] =
    Ret EXIT_SUCCESS
      (with_out (out st ++ concat (map (emit st) [bytes "a"; [1; 2]])) st).
Proof.
  apply (first_block_is_enough _ [] _ stdin [bytes "a"; [1; 2]]); reflexivity.
Defined.

(** X19. When a record reaches 1024 bytes and the larger block is
    refused, the run ends with the status of failure and the diagnostic
    "realloc" at the byte that follows, be it a terminator or not; the
    shorter records before it have been written. *)
Theorem realloc_failure_is_fatal (E : env) (opts : list optchar) (st : state)
    (h : FILEp) (rs : list (list Z)) (big : list Z) (c : Z) (rest : list Z) :
  e_alloc E 1024 = true ->
  e_alloc E 2048 = false ->
  process_args E opts [] initial = Ret [] st ->
  s_inpstr st = Some h ->
  s_data (contents E h) = join (in_terminator st) rs ++ big ++ c :: rest ->
  free_of (in_terminator st) rs = true ->
  forallb (fun r => (length r <? 1024)%nat) rs = true ->
  forallb (fun b => negb (b =? in_terminator st)) big = true ->
  length big = 1024%nat ->
  run E opts [] =
    Exit EXIT_FAILURE
      (with_errs (errs st ++ ["realloc"%string])
         (with_out (out st ++ concat (map (emit st) rs)) st)).
Proof.
  intros Halloc Hno Hargs Hinp Hc Hrs Hshort Hbig Hlen.
  unfold run. rewrite (main_reads E opts st h Hargs Hinp Halloc).
  rewrite Hc.
  destruct (read_loop_records_room E st rs (big ++ c :: rest)
              (first_block (e_fresh E)) st
              (first_block_wf E) eq_refl eq_refl Hrs Hshort) as [Hrun Hsz].
  rewrite Hrun.
  set (st1 := with_out (out st ++ concat (map (emit st) rs)) st).
  set (B1 := after_records (e_fresh E) rs (first_block (e_fresh E))) in *.
  assert (wf_buffer B1) as HB1 by apply after_records_wf, first_block_wf.
  assert (bufpos B1 = O) as Hpos1 by now apply after_records_bufpos.
  cbn [first_block bufsz] in Hsz.
  destruct (read_loop_record_room E (encdec_of st) big (c :: rest) B1 st1 HB1)
    as [Hrun2 Hsz2]; [lia | exact Hbig |].
  rewrite Hrun2.
  set (B2 := push_all (e_fresh E) big B1) in *.
  assert (bufpos B2 = 1024%nat) as Hpos2
    by (unfold B2; rewrite push_all_bufpos; lia).
  cbn [read_loop]. unfold bind at 1.
  rewrite Hsz2, Hsz, Hpos2. cbn [Nat.leb].
  unfold realloc_twice. rewrite Hsz2, Hsz.
  change (1024 * 2)%nat with 2048%nat. rewrite Hno.
  reflexivity.
Qed.

Lemma realloc_failure_is_fatal_witness :
  let E := {| a0 := "rscode"; PACKAGE_NAME := "rscode"; PACKAGE_VERSION := "0.1";
              e_stdin := {| s_data := join 10 [bytes "a"] ++ replicate 1024 98
                                      ++ 10 :: bytes "z";
                            s_ferror := false |};
              e_files := fun _ => None;
              e_alloc := fun n => (n =? 1024)%nat;
              e_fresh := 0 |} in
  let st := with_inpstr (Some stdin) initial in
  run E [] [] =
    Exit EXIT_FAILURE
      (with_errs (errs st ++ ["realloc"%string])
         (with_out (out st ++ concat (map (emit st) [bytes "a"])) st)).
Proof.
  apply (realloc_failure_is_fatal _ [] _ stdin [bytes "a"] (replicate 1024 98)
           10 (bytes "z")); reflexivity.
Defined.

(** *** Whole streams *)

Lemma emit_cstr st r : emit st r = emit st (cstr r).
Proof.
  unfold emit.
  destruct (loops_on_cstr r true) as (_ & He & Hd). now rewrite <- He, <- Hd.
Qed.

(** X20. A line of the stream is processed up to its first NUL byte:
    where the terminator of the input is the newline, what is written
    for each line is what is written for the bytes before the first NUL
    of the line, and the rest of the line is lost without a word. *)
Theorem lines_end_at_the_first_nul (E : env) (opts : list optchar) (st : state)
    (h : FILEp) (rs : list (list Z)) :
  (forall n, e_alloc E n = true) ->
  process_args E opts [] initial = Ret [] st ->
  s_inpstr st = Some h ->
  in_terminator st = 10 ->
  contents E h = {| s_data := join 10 rs; s_ferror := false |} ->
  free_of 10 rs = true ->
  run E opts [] =
    Ret EXIT_SUCCESS
      (with_out (out st ++ concat (map (fun r => emit st (cstr r)) rs)) st).
Proof.
  intros Halloc Hargs Hinp Ht Hc Hrs.
  rewrite (main_stream E Halloc opts st h rs []);
    [| assumption | assumption | rewrite Hc, Ht, app_nil_r; reflexivity
     | now rewrite Hc | now rewrite Ht | reflexivity].
  cbv zeta. do 4 f_equal. apply map_ext. intros r. apply emit_cstr.
Qed.

Lemma lines_end_at_the_first_nul_witness :
  let rs := [[97; 0; 98; 99]; [100]] in
  let st := with_inpstr (Some stdin) initial in
  run (example_env (join 10 rs)) [] [] =
    Ret EXIT_SUCCESS
      (with_out (out st ++ concat (map (fun r => emit st (cstr r)) rs)) st) /\
  concat (map (fun r => emit st (cstr r)) rs) = [97; 10; 100; 10].
Proof.
  split; [|reflexivity].
  apply (lines_end_at_the_first_nul (example_env (join 10 [[97; 0; 98; 99]; [100]]))
           [] _ stdin [[97; 0; 98; 99]; [100]]); reflexivity.
Defined.

Lemma free_of_printable t rs :
  t < 32 ->
  forallb (forallb printable) rs = true -> free_of t rs = true.
Proof.
  intros Ht H. unfold free_of. rewrite forallb_forall in *. intros r Hr.
  specialize (H r Hr). rewrite forallb_forall in *. intros b Hb.
  specialize (H b Hb). apply printable_range in H.
  apply negb_true_iff, Z.eqb_neq. lia.
Qed.

Lemma join_map t f (rs : list (list Z)) :
  concat (map (fun r => f r ++ [t]) rs) = join t (map f rs).
Proof. unfold join. now rewrite map_map. Qed.

(** X21. Decoding the output of an encoding run gives the input stream
    again.  For a stream of records of bytes without NUL, each followed
    by the terminator, the newline or with [-0] the NUL, that does not
    occur in the records: the encoding run writes one line for each
    record, and the decoding run with the same flag, fed with these
    lines, writes the stream that the encoding run read. *)
Theorem pipeline_round_trip (E1 E2 : env) (nul : bool) (rs : list (list Z)) :
  (forall n, e_alloc E1 n = true) ->
  (forall n, e_alloc E2 n = true) ->
  forallb bytes_ok rs = true ->
  forallb nul_free rs = true ->
  let t := if nul then 0 else 10 in
  let flags := if nul then [opt_0] else [] in
  free_of t rs = true ->
  e_stdin E1 = {| s_data := join t rs; s_ferror := false |} ->
  e_stdin E2 = {| s_data := join 10 (map encode_loop rs); s_ferror := false |} ->
  behaviour (run E1 flags []) =
    Some (EXIT_SUCCESS, join 10 (map encode_loop rs), []) /\
  behaviour (run E2 (opt_d :: flags) []) = Some (EXIT_SUCCESS, join t rs, []).
Proof.
  intros Ha1 Ha2 Hb Hn t flags Hfree H1 H2.
  assert (forallb (forallb printable) (map encode_loop rs) = true) as Hprint.
  { rewrite forallb_forall in *. intros e He. apply in_map_iff in He.
    destruct He as (r & <- & Hr). apply encode_loop_printable. now apply Hb. }
  assert (map decode_loop (map encode_loop rs) = rs) as Hround.
  { rewrite map_map. rewrite <- (map_id rs) at 2. apply map_ext_in.
    intros r Hr. rewrite forallb_forall in Hb, Hn.
    rewrite decode_encode_cstr by now apply Hb.
    apply cstr_nul_free. now apply Hn. }
  split.
  - set (st := with_nulterm nul (with_inpstr (Some stdin) initial)).
    rewrite (main_stream E1 Ha1 flags st stdin rs []).
    + cbv zeta. unfold emit. subst st.
      cbn [behaviour out errs with_out with_nulterm with_inpstr initial app
           s_decode].
      now rewrite join_map.
    + subst flags st. destruct nul; reflexivity.
    + reflexivity.
    + cbn [contents]. rewrite H1, app_nil_r. subst t st. now destruct nul.
    + cbn [contents]. now rewrite H1.
    + subst t st. now destruct nul.
    + reflexivity.
  - set (st := with_nulterm nul
                 (with_inpstr (Some stdin) (with_decode true initial))).
    rewrite (main_stream E2 Ha2 (opt_d :: flags) st stdin (map encode_loop rs) []).
    + cbv zeta. unfold emit. subst st.
      cbn [behaviour out errs with_out with_nulterm with_inpstr with_decode
           initial app s_decode s_nulterm].
      rewrite (join_map (if nul then 0 else 10) decode_loop), Hround.
      reflexivity.
    + subst flags st. destruct nul; reflexivity.
    + reflexivity.
    + cbn [contents]. rewrite H2, app_nil_r. reflexivity.
    + cbn [contents]. now rewrite H2.
    + apply free_of_printable; [reflexivity | exact Hprint].
    + reflexivity.
Qed.

Lemma pipeline_round_trip_witness :
  let rs := [[1; 10; 200]; bytes "a\#123"] in
  behaviour (run (example_env (join 0 rs)) [opt_0] []) =
    Some (EXIT_SUCCESS, join 10 (map encode_loop rs), []) /\
  behaviour (run (example_env (join 10 (map encode_loop rs))) [opt_d; opt_0] []) =
    Some (EXIT_SUCCESS, join 0 rs, []).
Proof.
  apply (pipeline_round_trip
           (example_env (join 0 [[1; 10; 200]; bytes "a\#123"]))
           (example_env (join 10 (map encode_loop [[1; 10; 200]; bytes "a\#123"])))
           true [[1; 10; 200]; bytes "a\#123"]); reflexivity.
Defined.

Lemma doubling_is_pow n : doubling n -> exists k, n = (1024 * 2 ^ k)%nat.
Proof.
  induction 1 as [|n Hn [k IH]].
  - exists O. reflexivity.
  - exists (S k). rewrite Nat.pow_succ_r'. lia.
Qed.

(** X22. A stream that is one record without terminator is processed,
    with the warning, unless its length is a size the block takes, 1024
    bytes doubled any number of times: then the block is full when the
    stream ends, and the NUL that closes the record is stored one byte
    past the end of the block. *)
Theorem last_record_and_block_size (E : env) (opts : list optchar) (st : state)
    (h : FILEp) (tail : list Z) :
  (forall n, e_alloc E n = true) ->
  process_args E opts [] initial = Ret [] st ->
  s_inpstr st = Some h ->
  contents E h = {| s_data := tail; s_ferror := false |} ->
  forallb (fun b => negb (b =? in_terminator st)) tail = true ->
  tail <> [] ->
  ((exists k, length tail = (1024 * 2 ^ k)%nat) ->
   run E opts [] =
     Undefined (with_errs (errs st ++ [terminator_missing]) st)) /\
  ((forall k, length tail <> (1024 * 2 ^ k)%nat) ->
   run E opts [] =
     Ret EXIT_SUCCESS
       (with_out (out st ++ emit st tail)
          (with_errs (errs st ++ [terminator_missing]) st))).
Proof.
  intros Halloc Hargs Hinp Hc Htail Hne. split.
  - intros [k Hk]. now apply (unterminated_record_overflow E opts st h tail k).
  - intros Hk.
    rewrite (main_stream E Halloc opts st h [] tail);
      [| assumption | assumption | now rewrite Hc | now rewrite Hc
       | reflexivity | assumption].
    cbv zeta. cbn [after_records fold_left map concat].
    set (B2 := push_all (e_fresh E) tail (first_block (e_fresh E))).
    assert (snug B2) as [Hd _].
    { apply push_all_snug; [apply first_block_wf|].
      split; [apply doubling_first | now left]. }
    assert (wf_buffer B2) as (_ & Hle & _)
      by (apply push_all_wf, first_block_wf).
    assert (bufpos B2 = length tail) as Hpos
      by (unfold B2; rewrite push_all_bufpos; reflexivity).
    destruct (Nat.ltb_spec (bufpos B2) (bufsz B2)) as [Hlt|Hge].
    + destruct tail as [|c tail]; [contradiction|].
      f_equal. destruct st. cbn. now rewrite app_nil_r.
    + exfalso. apply doubling_is_pow in Hd. destruct Hd as [k Hd].
      apply (Hk k). lia.
Qed.

Lemma last_record_and_block_size_witness :
  let st := with_inpstr (Some stdin) initial in
  run (example_env (replicate 1024 97)) [] [] =
    Undefined (with_errs (errs st ++ [terminator_missing]) st) /\
  run (example_env (bytes "abc")) [] [] =
    Ret EXIT_SUCCESS
      (with_out (out st ++ emit st (bytes "abc"))
         (with_errs (errs st ++ [terminator_missing]) st)).
Proof.
  split.
  - apply (proj1 (last_record_and_block_size (example_env (replicate 1024 97))
                    [] _ stdin (replicate 1024 97)
                    (fun _ => eq_refl) eq_refl eq_refl eq_refl eq_refl
                    ltac:(discriminate))).
    exists O. reflexivity.
  - apply (proj2 (last_record_and_block_size (example_env (bytes "abc"))
                    [] _ stdin (bytes "abc")
                    (fun _ => eq_refl) eq_refl eq_refl eq_refl eq_refl
                    ltac:(discriminate))).
    intros k. pose proof (doubling_min _ (doubling_pow k)). simpl length. lia.
Defined.

(** ** The warning about [-0], over all invocations *)

Section Warning.

Variable E : env.

Lemma unwarned_initial : unwarned initial.
Proof. intros []. Qed.

Lemma unwarned_message st msg :
  unwarned st -> msg <> ignoring_0 ->
  unwarned (with_errs (errs st ++ [msg]) st).
Proof.
  intros Hst Hmsg Hin. cbn [errs with_errs] in Hin.
  apply in_app_or in Hin. destruct Hin as [Hin|[Hin|[]]]; [now apply Hst|].
  now apply Hmsg.
Qed.

(** The warning is the text of no other diagnostic. *)
Lemma usage_text_is_no_warning : usage_text E <> ignoring_0.
Proof. unfold usage_text. cbn [String.concat]. discriminate. Qed.

Lemma keeps_bind {A B} (m : M A) (k : A -> M B) :
  keeps_unwarned m -> (forall a, keeps_unwarned (k a)) ->
  keeps_unwarned (bind m k).
Proof.
  intros Hm Hk st Hst. unfold bind. specialize (Hm st Hst).
  destruct (m st) as [a st1|c st1|st1]; cbn [final_state] in *;
    [now apply Hk | exact Hm | exact Hm].
Qed.

(** The same, from one state on. *)
Lemma bind_unwarned {A B} (m : M A) (k : A -> M B) st :
  unwarned (final_state (m st)) -> (forall a, keeps_unwarned (k a)) ->
  unwarned (final_state (bind m k st)).
Proof.
  intros Hm Hk. unfold bind.
  destruct (m st) as [a st1|c st1|st1]; cbn [final_state] in *;
    [now apply Hk | exact Hm | exact Hm].
Qed.

Lemma keeps_ret {A} (a : A) : keeps_unwarned (ret a).
Proof. intros st Hst. exact Hst. Qed.

Lemma keeps_gets {A} (f : state -> A) : keeps_unwarned (gets f).
Proof. intros st Hst. exact Hst. Qed.

Lemma keeps_exit {A} c : keeps_unwarned (exit (A := A) c).
Proof. intros st Hst. exact Hst. Qed.

Lemma keeps_undefined {A} : keeps_unwarned (undefined (A := A)).
Proof. intros st Hst. exact Hst. Qed.

Lemma keeps_modify f :
  (forall st, errs (f st) = errs st) -> keeps_unwarned (modify f).
Proof.
  intros Hf st Hst. unfold modify, unwarned. cbn [final_state].
  now rewrite Hf.
Qed.

Lemma keeps_write bs : keeps_unwarned (write bs).
Proof. apply keeps_modify. reflexivity. Qed.

Lemma keeps_warnx msg : msg <> ignoring_0 -> keeps_unwarned (warnx msg).
Proof. intros Hmsg st Hst. now apply unwarned_message. Qed.

Lemma keeps_err {A} c msg :
  msg <> ignoring_0 -> keeps_unwarned (err (A := A) c msg).
Proof.
  intros Hmsg. unfold err. apply keeps_bind; [now apply keeps_warnx|].
  intros _. apply keeps_exit.
Qed.

Lemma keeps_encode s : keeps_unwarned (encode s).
Proof. intros st Hst. rewrite encode_state. exact Hst. Qed.

Lemma keeps_decode s : keeps_unwarned (decode s).
Proof. intros st Hst. rewrite decode_state. exact Hst. Qed.

(** Goes through a computation made of the steps above. *)
Ltac unwarned_steps :=
  repeat first
    [ apply keeps_bind; [|intros ?]
    | apply keeps_ret | apply keeps_gets | apply keeps_exit
    | apply keeps_undefined | apply keeps_write
    | apply keeps_encode | apply keeps_decode
    | apply keeps_modify; reflexivity
    | apply keeps_warnx; discriminate
    | apply keeps_err; discriminate
    | match goal with
      | |- keeps_unwarned (if ?c then _ else _) => destruct c
      | |- keeps_unwarned (match ?x with _ => _ end) => destruct x
      end ].

Lemma keeps_process_opt ch : keeps_unwarned (process_opt E ch).
Proof.
  destruct ch; unfold process_opt, usage, puts; unwarned_steps.
Qed.

Lemma keeps_getopt_loop opts : keeps_unwarned (getopt_loop E opts).
Proof.
  induction opts as [|ch opts IH]; cbn [getopt_loop]; [apply keeps_ret|].
  apply keeps_bind; [apply keeps_process_opt | intros _; exact IH].
Qed.

Lemma keeps_args_loop encdec argv :
  (forall s, keeps_unwarned (encdec s)) ->
  keeps_unwarned (args_loop encdec argv).
Proof.
  intros Henc. induction argv as [|s argv IH]; cbn [args_loop];
    [apply keeps_ret|].
  apply keeps_bind; [apply Henc | intros _; exact IH].
Qed.

Lemma keeps_read_loop encdec input :
  (forall s, keeps_unwarned (encdec s)) ->
  forall B, keeps_unwarned (read_loop E encdec input B).
Proof.
  intros Henc. induction input as [|c input IH]; intros B; cbn [read_loop];
    [apply keeps_ret|].
  unfold realloc_twice, store.
  unwarned_steps; solve [apply Henc | apply IH].
Qed.

(** What follows [init] in [main] issues no warning about [-0]. *)
Lemma main_unwarned opts operands st :
  unwarned (final_state (process_args E opts operands st)) ->
  unwarned (final_state (main E opts operands st)).
Proof.
  intros H. unfold main, init. apply bind_unwarned; [exact H|].
  intros argv. apply keeps_bind; [apply keeps_gets|]. intros dec. cbv zeta.
  assert (Henc : forall s, keeps_unwarned ((if dec then decode else encode) s))
    by (intros s; destruct dec; [apply keeps_decode | apply keeps_encode]).
  unfold malloc, store.
  unwarned_steps;
    solve [ now apply keeps_args_loop | now apply keeps_read_loop
          | apply Henc ].
Qed.

(** An option loop that returns went through benign options only. *)
Lemma getopt_loop_ret_benign opts :
  forall st st',
    getopt_loop E opts st = Ret tt st' -> forallb (benign E) opts = true.
Proof.
  induction opts as [|ch opts IH]; intros st st' H; [reflexivity|].
  rewrite getopt_loop_cons in H.
  destruct (process_opt E ch st) as [[] st1| |] eqn:Hopt; try discriminate.
  cbn [forallb]. rewrite (IH _ _ H), andb_true_r.
  revert Hopt. destruct ch; run_opt; try discriminate; try reflexivity.
  destruct (optarg =? "-")%string; cbn; [reflexivity|].
  destruct (e_files E optarg); cbn; [reflexivity | discriminate].
Qed.

(** [process_args] on an invocation that is accepted. *)
Lemma process_args_accepted opts operands :
  options_accepted E opts operands = true ->
  let ignored := negb (length operands =? 0)%nat && negb (mode_of opts) in
  exists st,
    process_args E opts operands initial = Ret operands st /\
    s_decode st = mode_of opts /\
    s_nulterm st = nul_requested opts && negb ignored /\
    errs st = (if nul_requested opts && ignored then [ignoring_0] else []).
Proof.
  unfold options_accepted. rewrite andb_true_iff, negb_true_iff.
  intros [Hb Hf].
  destruct (getopt_loop_benign E opts Hb initial) as (st1 & Hloop & _ & He).
  rewrite (process_args_after_getopt E opts operands _ _ Hloop).
  pose proof (getopt_loop_mode E opts _ _ Hloop) as Hm.
  apply getopt_loop_ret in Hloop. destruct Hloop as (_ & _ & Hn & Hi).
  cbn [initial s_nulterm s_inpstr s_decode errs is_some orb] in He, Hn, Hi, Hm.
  fold (mode_of opts) in Hm. rewrite Hi, Hf, <- Hm, <- Hn. cbv zeta.
  destruct (length operands =? 0)%nat; cbn [negb andb] in *;
    destruct (has_f opts); try discriminate; cbn [negb andb];
    cbn [s_decode s_nulterm with_inpstr];
    destruct (s_decode st1) eqn:Hd, (s_nulterm st1) eqn:Hnl; cbn [negb andb];
    eexists; (split; [reflexivity|]);
    cbn [s_decode s_nulterm errs with_inpstr with_nulterm with_errs];
    rewrite ?Hd, ?Hnl, ?He; auto.
Qed.

(** [process_args] on an invocation that is not. *)
Lemma process_args_refused opts operands :
  options_accepted E opts operands = false ->
  exists c st,
    process_args E opts operands initial = Exit c st /\
    ~ In ignoring_0 (errs st).
Proof.
  unfold options_accepted. intros Hacc.
  destruct (getopt_loop E opts initial) as [[] st1|c st1|st1] eqn:Hloop.
  - rewrite (process_args_after_getopt E opts operands _ _ Hloop).
    rewrite (getopt_loop_ret_benign _ _ _ Hloop) in Hacc.
    pose proof (keeps_getopt_loop opts initial unwarned_initial) as Hun.
    rewrite Hloop in Hun. cbn [final_state] in Hun.
    apply getopt_loop_ret in Hloop. destruct Hloop as (_ & _ & _ & Hi).
    cbn [initial s_inpstr is_some orb] in Hi. rewrite Hi.
    cbn [andb] in Hacc. apply negb_false_iff in Hacc. rewrite Hacc.
    do 2 eexists. split; [reflexivity|].
    apply unwarned_message; [exact Hun | discriminate].
  - rewrite (process_args_exit E opts operands _ _ _ Hloop).
    pose proof (keeps_getopt_loop opts initial unwarned_initial) as Hun.
    rewrite Hloop in Hun. now exists c, st1.
  - exfalso. eapply getopt_loop_defined, Hloop.
Qed.

(** The warning on [stderr] at the end of the run. *)
Lemma run_warning opts operands :
  In ignoring_0 (errs (final_state (run E opts operands))) <->
  options_accepted E opts operands = true /\
  nul_requested opts = true /\
  negb (length operands =? 0)%nat && negb (mode_of opts) = true.
Proof.
  unfold run.
  destruct (options_accepted E opts operands) eqn:Hacc.
  - destruct (process_args_accepted opts operands Hacc)
      as (st & Hargs & _ & _ & He).
    destruct operands as [|s operands].
    + split; [|intros (_ & _ & H); discriminate].
      intros Hin. exfalso. revert Hin. apply main_unwarned.
      rewrite Hargs. cbn [final_state]. unfold unwarned. rewrite He.
      cbn [length Nat.eqb negb andb]. rewrite andb_false_r. intros [].
    + rewrite (main_operands E opts _ _ _ _ Hargs) by discriminate.
      cbn [final_state errs with_out length Nat.eqb negb andb] in *.
      rewrite He.
      destruct (nul_requested opts), (mode_of opts); cbn [negb andb];
        (split; [intros Hin; solve [destruct Hin | auto]
                |intros (_ & H1 & H2); solve [discriminate | now left]]).
  - destruct (process_args_refused opts operands Hacc) as (c & st & Hargs & Hun).
    rewrite (proj1 (main_stops E opts operands initial) _ _ Hargs).
    cbn [final_state]. split; [contradiction|]. intros (H & _). discriminate.
Qed.

End Warning.

(** The claim C9 as the specification words it, with the warning
    whenever operands are present and the mode is encode, fails where
    the run ends before the rule is reached.  With [-0 -f somefile] and
    an operand the run ends on the error about [-f]; with [-V], [-h] or
    an unknown option after [-0] it ends in the option loop.  None of
    these runs issues the warning.  Nor does a run with an operand and
    no [-0], where there is no flag to ignore. *)
Lemma no_warning_when_the_run_ends_early :
  let E := example_env [] in
  let x := [bytes "x"] in
  (nul_requested [opt_0; opt_f "somefile"] = true /\
   mode_of [opt_0; opt_f "somefile"] = false /\
   x <> [] /\
   exists st,
     run E [opt_0; opt_f "somefile"] x = Exit EXIT_FAILURE st /\
     errs st = ["error: arguments and -f present, wat do?!"%string] /\
     ~ In ignoring_0 (errs st)) /\
  (exists st,
     run E [opt_0; opt_V] x = Exit EXIT_SUCCESS st /\ errs st = []) /\
  (exists st,
     run E [opt_0; opt_h] x = Exit EXIT_SUCCESS st /\ errs st = []) /\
  (exists st,
     run E [opt_0; opt_unknown] x = Exit EXIT_FAILURE st /\
     errs st = [usage_text E] /\
     ~ In ignoring_0 (errs st)) /\
  (exists st,
     run E [] x = Ret EXIT_SUCCESS st /\
     s_decode st = false /\ errs st = []).
Proof.
  cbv zeta. split; [|split; [|split; [|split]]].
  - split; [reflexivity|]. split; [reflexivity|]. split; [discriminate|].
    eexists. split; [reflexivity|]. split; [reflexivity|].
    intros [H|[]]. discriminate.
  - eexists. split; reflexivity.
  - eexists. split; reflexivity.
  - eexists. split; [reflexivity|]. split; [reflexivity|].
    intros [H|[]]. revert H. apply usage_text_is_no_warning.
  - exists (with_out [120; 10] initial). split; [reflexivity|].
    split; reflexivity.
Qed.

(** C9, amended. The NUL-termination flag that the options ask for is
    dropped, and the warning issued, exactly when there are operands,
    the mode is encode and option processing runs to its end, which it
    does when no [-h], [-V], unknown option or [-f] whose file cannot be
    opened ends the run and [-f] does not meet operands.  In every
    other case no such warning is issued, up to the end of the run, and
    where option processing runs to its end the flag stands as asked. *)
Theorem nul_flag_ignored_rule (E : env) (opts : list optchar)
    (operands : list (list Z)) :
  let ignored := negb (length operands =? 0)%nat && negb (mode_of opts) in
  (options_accepted E opts operands = true ->
   exists st,
     process_args E opts operands initial = Ret operands st /\
     s_decode st = mode_of opts /\
     s_nulterm st = nul_requested opts && negb ignored /\
     errs st = (if nul_requested opts && ignored then [ignoring_0] else [])) /\
  (options_accepted E opts operands = false ->
   exists c st,
     process_args E opts operands initial = Exit c st /\
     ~ In ignoring_0 (errs st)) /\
  (In ignoring_0 (errs (final_state (run E opts operands))) <->
   options_accepted E opts operands = true /\
   nul_requested opts = true /\ ignored = true).
Proof.
  cbv zeta. split; [|split].
  - apply process_args_accepted.
  - apply process_args_refused.
  - apply run_warning.
Qed.

Lemma nul_flag_ignored_rule_witness :
  (exists st,
     process_args (example_env []) [opt_0] [bytes "x"] initial
       = Ret [bytes "x"] st /\
     s_decode st = false /\ s_nulterm st = false /\
     errs st = [ignoring_0]) /\
  (exists st,
     process_args (example_env []) [opt_d; opt_0] [bytes "x"] initial
       = Ret [bytes "x"] st /\
     s_decode st = true /\ s_nulterm st = true /\ errs st = []) /\
  (exists c st,
     process_args (example_env []) [opt_0; opt_f "somefile"] [bytes "x"]
       initial = Exit c st /\
     ~ In ignoring_0 (errs st)).
Proof.
  split; [|split].
  - apply (proj1 (nul_flag_ignored_rule (example_env []) [opt_0] [bytes "x"])).
    reflexivity.
  - apply (proj1 (nul_flag_ignored_rule (example_env []) [opt_d; opt_0]
                    [bytes "x"])).
    reflexivity.
  - apply (proj1 (proj2 (nul_flag_ignored_rule (example_env [])
                           [opt_0; opt_f "somefile"] [bytes "x"]))).
    reflexivity.
Defined.
